(** * The Qt stub backend (desktop/qt_stub.cpp): widget registry and
      simulated event loop, as a shallow embedding.

    The C++ translation unit keeps its state in globals (the run flag, the
    verbosity flag, the identity counter, the registry vector) and in heap
    objects reached through raw pointers.  Here the globals and the heap are
    the fields of one [State] record that every function threads through;
    a function that dereferences a pointer returns [option], with [None]
    standing for the undefined behaviour of dereferencing something that is
    not a live [Widget]. *)

From stdpp Require Import gmap strings list fin_maps.

Local Open Scope string_scope.
Local Open Scope Z_scope.
Local Open Scope list_scope.

(** ** Machine integers

    [int] is 32 bits wide.  Values are kept in [Z]; the only arithmetic the
    stub performs on an [int] is [next_id++], whose result is reduced to the
    two's complement range. *)

Definition INT_MIN : Z := -2147483648.
Definition INT_MAX : Z := 2147483647.

Definition wrap_int (z : Z) : Z := (z + 2147483648) mod 4294967296 - 2147483648.

(** ** namespace qtstub *)

Module qtstub.

(** Non-null addresses of heap objects; a C pointer is [option addr] with
    [None] for [nullptr]. *)
Definition addr : Type := positive.
Definition ptr : Type := option addr.

(** [const char*] arguments: [None] is the null pointer. *)
Definition cstr : Type := option string.

Inductive Kind : Type := Window | Button | Generic.

#[global] Instance Kind_eq_dec : EqDecision Kind.
Proof. solve_decision. Defined.

Record Widget : Type := mkWidget {
  kind : Kind;
  title : string;
  label : string;
  width : Z;
  height : Z;
  parent : ptr;
  id : Z
}.

(** The default member initialisers of [struct Widget]: what [new Widget()]
    yields. *)
Definition Widget_new : Widget :=
  {| kind := Generic; title := ""; label := ""; width := 0; height := 0;
     parent := None; id := 0 |}.

Definition set_kind (k : Kind) (w : Widget) : Widget :=
  {| kind := k; title := title w; label := label w; width := width w;
     height := height w; parent := parent w; id := id w |}.
Definition set_title (s : string) (w : Widget) : Widget :=
  {| kind := kind w; title := s; label := label w; width := width w;
     height := height w; parent := parent w; id := id w |}.
Definition set_label (s : string) (w : Widget) : Widget :=
  {| kind := kind w; title := title w; label := s; width := width w;
     height := height w; parent := parent w; id := id w |}.
Definition set_width (z : Z) (w : Widget) : Widget :=
  {| kind := kind w; title := title w; label := label w; width := z;
     height := height w; parent := parent w; id := id w |}.
Definition set_height (z : Z) (w : Widget) : Widget :=
  {| kind := kind w; title := title w; label := label w; width := width w;
     height := z; parent := parent w; id := id w |}.
Definition set_parent (p : ptr) (w : Widget) : Widget :=
  {| kind := kind w; title := title w; label := label w; width := width w;
     height := height w; parent := p; id := id w |}.
Definition set_id (z : Z) (w : Widget) : Widget :=
  {| kind := kind w; title := title w; label := label w; width := width w;
     height := height w; parent := parent w; id := z |}.

(** One line written to stderr by [trace].  The printf formatting is kept
    structured: a plain message, or the arguments of [dump_widget]'s format
    string in order. *)
Inductive trace_line : Type :=
  | Msg (text : string)
  | Dump (prefix : string) (wid : Z) (kname : string) (wtitle wlabel : string)
         (w h : Z) (parent_id : Z).

(** The globals of the translation unit, the heap of [Widget] objects and
    the lines written to stderr so far (oldest first). *)
Record State : Type := mkState {
  g_running : bool;
  g_verbose : bool;
  next_id : Z;
  registry : list addr;
  heap : gmap addr Widget;
  stderr : list trace_line
}.

(** Static initialisation: [g_running{false}], [g_verbose = true],
    [next_id = 1], an empty vector, nothing allocated. *)
Definition init_state : State :=
  {| g_running := false; g_verbose := true; next_id := 1; registry := [];
     heap := ∅; stderr := [] |}.

Definition with_running (b : bool) (st : State) : State :=
  {| g_running := b; g_verbose := g_verbose st; next_id := next_id st;
     registry := registry st; heap := heap st; stderr := stderr st |}.
Definition with_verbose (b : bool) (st : State) : State :=
  {| g_running := g_running st; g_verbose := b; next_id := next_id st;
     registry := registry st; heap := heap st; stderr := stderr st |}.
Definition with_heap (h : gmap addr Widget) (st : State) : State :=
  {| g_running := g_running st; g_verbose := g_verbose st;
     next_id := next_id st; registry := registry st; heap := h;
     stderr := stderr st |}.
Definition with_stderr (l : list trace_line) (st : State) : State :=
  {| g_running := g_running st; g_verbose := g_verbose st;
     next_id := next_id st; registry := registry st; heap := heap st;
     stderr := l |}.

(** [trace]: nothing when not verbose, one line otherwise. *)
Definition trace (ln : trace_line) (st : State) : State :=
  if g_verbose st then with_stderr (stderr st ++ [ln]) st else st.

(** [operator new] hands out storage that no live object occupies.  The
    model picks one such address; only its freshness is ever used. *)
Definition new_addr (h : gmap addr Widget) : addr := fresh (dom h).

(** [make_widget], run to completion by one thread (the lock is taken on
    entry and released on return, so it is free before and after):
    allocate, set the kind, take the counter and post-increment it, append
    the pointer to the registry. *)
Definition make_widget (k : Kind) (st : State) : State * addr :=
  let w := new_addr (heap st) in
  let obj := set_id (next_id st) (set_kind k Widget_new) in
  ({| g_running := g_running st; g_verbose := g_verbose st;
      next_id := wrap_int (next_id st + 1);
      registry := registry st ++ [w];
      heap := <[w := obj]> (heap st);
      stderr := stderr st |}, w).

Definition kind_name (k : Kind) : string :=
  match k with
  | Window => "Window"
  | Button => "Button"
  | Generic => "Widget"
  end.

(** [dump_widget] reads every field of [*w] and, when the parent pointer is
    not null, [w->parent->id]; the reads happen while the arguments of
    [trace] are evaluated, whatever the verbosity. *)
Definition dump_widget (w : addr) (prefix : string) (st : State) : option State :=
  obj ← heap st !! w;
  pid ← match parent obj with
        | None => Some 0
        | Some p => id <$> heap st !! p
        end;
  Some (trace (Dump prefix (id obj) (kind_name (kind obj)) (title obj)
                    (label obj) (width obj) (height obj) pid) st).

End qtstub.

Import qtstub.

(** ** extern "C" *)

Definition qt_set_verbose (on : Z) (st : State) : State :=
  with_verbose (negb (on =? 0)) st.

(** [getenv("QT_STUB_VERBOSE")] is the argument [env]. *)
Definition qt_init (env : cstr) (st : State) : State :=
  let st1 := match env with
             | Some v => with_verbose (negb (String.eqb v "0")) st
             | None => st
             end in
  trace (Msg "qt_init() — mode console (aucune GUI réelle).") st1.

Definition qt_window_new (title : cstr) (w h : Z) (st : State)
  : option (State * ptr) :=
  let '(st1, win) := make_widget Window st in
  obj ← heap st1 !! win;
  let obj1 := set_title (default "" title) obj in
  let obj2 := set_width (if 0 <? w then w else 800) obj1 in
  let obj3 := set_height (if 0 <? h then h else 600) obj2 in
  st2 ← dump_widget win "window_new" (with_heap (<[win := obj3]> (heap st1)) st1);
  Some (st2, Some win).

Definition qt_button_new (label : cstr) (st : State) : option (State * ptr) :=
  let '(st1, btn) := make_widget Button st in
  obj ← heap st1 !! btn;
  let obj1 := set_label (default "Button" label) obj in
  st2 ← dump_widget btn "button_new" (with_heap (<[btn := obj1]> (heap st1)) st1);
  Some (st2, Some btn).

Definition qt_widget_set_parent (child parent : ptr) (st : State) : option State :=
  match child with
  | None => Some st
  | Some c =>
      obj ← heap st !! c;
      dump_widget c "set_parent"
        (with_heap (<[c := set_parent parent obj]> (heap st)) st)
  end.

Definition qt_widget_show (widget : ptr) (st : State) : option State :=
  match widget with
  | None => Some (trace (Msg "widget_show(NULL) — ignoré.") st)
  | Some w => dump_widget w "widget_show" st
  end.

Definition qt_widget_set_title (widget : ptr) (title : cstr) (st : State)
  : option State :=
  match widget with
  | None => Some st
  | Some w =>
      obj ← heap st !! w;
      dump_widget w "set_title"
        (with_heap (<[w := set_title (default "" title) obj]> (heap st)) st)
  end.


(** ** The simulated event loop

    [qt_main_quit] is a trace followed by one atomic store. *)
Definition qt_main_quit (st : State) : State :=
  with_running false (trace (Msg "qt_main_quit() — demande d’arrêt.") st).


(** [qt_main] blocks: it returns only after some other thread (or a signal
    handler, or a callback) has stored [false] into [g_running].  It is
    modelled as the small-step machine of the thread that called it; one
    step is one atomic access to [g_running] or one sleep. *)
Inductive main_pc : Type :=
  | MainEntry               (* called, nothing executed yet *)
  | MainTest                (* at the loop condition *)
  | MainSleep               (* inside the 16 ms sleep *)
  | MainReturned (code : Z) (* [return code] executed *).

Definition qt_main_step (c : main_pc * State) : main_pc * State :=
  match c.1 with
  | MainEntry =>
      (MainTest,
       with_running true (trace (Msg "qt_main() — début boucle simulée.") c.2))
  | MainTest =>
      if g_running c.2 then (MainSleep, c.2)
      else (MainReturned 0, trace (Msg "qt_main() — fin boucle simulée.") c.2)
  | MainSleep => (MainTest, c.2)
  | MainReturned r => (MainReturned r, c.2)
  end.

(** What can happen while one thread is inside (or about to enter)
    [qt_main]: that thread advances, or somebody calls [qt_main_quit]. *)
Inductive loop_event : Type := Tick | Quit.

Definition loop_exec1 (c : main_pc * State) (e : loop_event) : main_pc * State :=
  match e with
  | Tick => qt_main_step c
  | Quit => (c.1, qt_main_quit c.2)
  end.

Definition loop_exec (es : list loop_event) (c : main_pc * State)
  : main_pc * State :=
  foldl loop_exec1 c es.

Definition returned (pc : main_pc) : bool :=
  match pc with MainReturned _ => true | _ => false end.

(** Inside the loop with the flag up. *)
Definition polling (c : main_pc * State) : Prop :=
  g_running c.2 = true ∧ (c.1 = MainTest ∨ c.1 = MainSleep).

(** ** Sequences of constructor calls *)

Inductive ctor_call : Type :=
  | NewWindow (title : cstr) (w h : Z)
  | NewButton (label : cstr).

Definition run_ctor (c : ctor_call) (st : State) : option (State * ptr) :=
  match c with
  | NewWindow t w h => qt_window_new t w h st
  | NewButton l => qt_button_new l st
  end.

(** Run the calls one after the other, collecting the handles returned. *)
Fixpoint run_ctors (cs : list ctor_call) (st : State)
  : option (State * list ptr) :=
  match cs with
  | [] => Some (st, [])
  | c :: cs' =>
      r ← run_ctor c st;
      r' ← run_ctors cs' r.1;
      Some (r'.1, r.2 :: r'.2)
  end.

(** The ids stored in the widgets a list of pointers leads to; [None] if
    one of them is dead. *)
Definition ids_of (h : gmap addr Widget) (l : list addr) : option (list Z) :=
  mapM (λ a, id <$> h !! a) l.

(** The ids of the registered widgets, in registry order. *)
Definition registry_ids (st : State) : option (list Z) :=
  ids_of (heap st) (registry st).

(** The registry invariant of the data model: the registry lists every
    allocated widget once, the widget at position [j] carries id [j + 1],
    and the counter is one past the last id issued. *)
Record registry_inv (st : State) : Prop := {
  inv_nodup : NoDup (registry st);
  inv_dom : dom (heap st) = list_to_set (registry st);
  inv_ids : registry_ids st = Some (seqZ 1 (Z.of_nat (length (registry st))));
  inv_next : next_id st = 1 + Z.of_nat (length (registry st));
  inv_range : next_id st <= INT_MAX
}.


(** ** Calls through the facade

    Every entry point that returns to its caller ([qt_main] is the machine
    above), with its arguments. *)
Inductive api_call : Type :=
  | CallSetVerbose (on : Z)
  | CallInit (env : cstr)
  | CallWindowNew (title : cstr) (w h : Z)
  | CallButtonNew (label : cstr)
  | CallSetParent (child parent : ptr)
  | CallShow (widget : ptr)
  | CallSetTitle (widget : ptr) (title : cstr)
  | CallMainQuit.

Definition api_run (call : api_call) (st : State) : option State :=
  match call with
  | CallSetVerbose on => Some (qt_set_verbose on st)
  | CallInit env => Some (qt_init env st)
  | CallWindowNew t w h => fst <$> qt_window_new t w h st
  | CallButtonNew l => fst <$> qt_button_new l st
  | CallSetParent c p => qt_widget_set_parent c p st
  | CallShow w => qt_widget_show w st
  | CallSetTitle w t => qt_widget_set_title w t st
  | CallMainQuit => Some (qt_main_quit st)
  end.

(** ** Concurrent callers of [make_widget]

    Several threads call [make_widget] at the same time.  Each statement of
    its body is one step of the calling thread, and the steps of different
    threads interleave in any order; [g_mu] is the only synchronisation.
    Every access to [next_id] and [registry] is made with the mutex held,
    so an interleaving of these steps covers every execution. *)

Module Concurrent.

(** Where a thread stands in [make_widget]. *)
Inductive mw_pc : Type :=
  | Idle                          (* outside the function *)
  | AtNew (k : Kind)              (* lock taken; before [new Widget()] *)
  | AtKind (k : Kind) (w : addr)  (* before [w->kind = k] *)
  | AtLoad (w : addr)             (* before the read of [next_id] *)
  | AtIncr (w : addr) (tmp : Z)   (* before the write [next_id = tmp + 1] *)
  | AtSetId (w : addr) (tmp : Z)  (* before [w->id = tmp] *)
  | AtPush (w : addr)             (* before [registry.push_back(w)] *)
  | AtUnlock (w : addr)           (* before the guard's destructor and [return w] *).

(** A thread: its position, the kinds it has still to allocate, and the
    pointers [make_widget] has returned to it. *)
Record Thread : Type := mkThread {
  pc : mw_pc;
  todo : list Kind;
  got : list addr
}.

(** The shared memory, the owner of [g_mu] (a thread index) if it is held,
    the threads, and whether some step had undefined behaviour. *)
Record Config : Type := mkConfig {
  shared : State;
  g_mu : option nat;
  threads : list Thread;
  crashed : bool
}.

Inductive outcome : Type :=
  | Wait                                        (* blocked in [lock()], or no call left *)
  | Fault                                       (* dereferenced a dead pointer *)
  | Next (mu : option nat) (st : State) (t : Thread).

Definition with_next_id (z : Z) (st : State) : State :=
  {| g_running := g_running st; g_verbose := g_verbose st; next_id := z;
     registry := registry st; heap := heap st; stderr := stderr st |}.
Definition with_registry (r : list addr) (st : State) : State :=
  {| g_running := g_running st; g_verbose := g_verbose st;
     next_id := next_id st; registry := r; heap := heap st;
     stderr := stderr st |}.

Definition at_pc (p : mw_pc) (t : Thread) : Thread :=
  {| pc := p; todo := todo t; got := got t |}.

Definition thread_step (i : nat) (mu : option nat) (st : State) (t : Thread)
  : outcome :=
  match pc t with
  | Idle =>
      match todo t, mu with
      | [], _ => Wait
      | _ :: _, Some _ => Wait
      | k :: ks, None =>
          Next (Some i) st {| pc := AtNew k; todo := ks; got := got t |}
      end
  | AtNew k =>
      let w := new_addr (heap st) in
      Next mu (with_heap (<[w := Widget_new]> (heap st)) st) (at_pc (AtKind k w) t)
  | AtKind k w =>
      match heap st !! w with
      | None => Fault
      | Some obj =>
          Next mu (with_heap (<[w := set_kind k obj]> (heap st)) st)
               (at_pc (AtLoad w) t)
      end
  | AtLoad w => Next mu st (at_pc (AtIncr w (next_id st)) t)
  | AtIncr w tmp =>
      Next mu (with_next_id (wrap_int (tmp + 1)) st) (at_pc (AtSetId w tmp) t)
  | AtSetId w tmp =>
      match heap st !! w with
      | None => Fault
      | Some obj =>
          Next mu (with_heap (<[w := set_id tmp obj]> (heap st)) st)
               (at_pc (AtPush w) t)
      end
  | AtPush w =>
      Next mu (with_registry (registry st ++ [w]) st) (at_pc (AtUnlock w) t)
  | AtUnlock w =>
      Next None st {| pc := Idle; todo := todo t; got := got t ++ [w] |}
  end.

(** The scheduler picks thread [i]; a thread that cannot move leaves the
    configuration as it is. *)
Definition step (c : Config) (i : nat) : Config :=
  match threads c !! i with
  | None => c
  | Some t =>
      match thread_step i (g_mu c) (shared c) t with
      | Wait => c
      | Fault =>
          {| shared := shared c; g_mu := g_mu c; threads := threads c;
             crashed := true |}
      | Next mu st t' =>
          {| shared := st; g_mu := mu; threads := <[i := t']> (threads c);
             crashed := crashed c |}
      end
  end.

Definition run (sched : list nat) (c : Config) : Config := foldl step c sched.

(** Thread [j] is to allocate the kinds [work !! j], starting from the
    initial state of the program. *)
Definition start (work : list (list Kind)) : Config :=
  {| shared := init_state; g_mu := None;
     threads := (λ ks, {| pc := Idle; todo := ks; got := [] |}) <$> work;
     crashed := false |}.

Definition total_work (work : list (list Kind)) : nat := length (concat work).

Definition thread_done (t : Thread) : bool :=
  match pc t, todo t with
  | Idle, [] => true
  | _, _ => false
  end.

Definition finished (c : Config) : bool := forallb thread_done (threads c).

(** All pointers handed back to the callers so far, and the ids stored in
    the widgets they point to. *)
Definition handles (c : Config) : list addr := threads c ≫= got.

Definition issued (c : Config) : option (list Z) :=
  ids_of (heap (shared c)) (handles c).

(** *** The invariant of the interleaved executions *)

(** The pointers thread [t] has pushed to the registry: those returned to
    it, and the one it is about to return. *)
Definition pushed (t : Thread) : list addr :=
  got t ++ match pc t with AtUnlock w => [w] | _ => [] end.

(** The widgets thread [t] has still to push. *)
Definition remaining (t : Thread) : nat :=
  (length (todo t) + match pc t with Idle | AtUnlock _ => 0 | _ => 1 end)%nat.

(** What the thread inside the critical section can rely on, position by
    position; [n] is the id the next pushed widget must carry. *)
Definition pc_ok (st : State) (p : mw_pc) : Prop :=
  let n := 1 + Z.of_nat (length (registry st)) in
  match p with
  | Idle => True
  | AtNew _ => next_id st = n
  | AtKind _ w | AtLoad w =>
      next_id st = n ∧ is_Some (heap st !! w) ∧ w ∉ registry st
  | AtIncr w tmp =>
      tmp = n ∧ next_id st = n ∧ is_Some (heap st !! w) ∧ w ∉ registry st
  | AtSetId w tmp =>
      tmp = n ∧ next_id st = n + 1 ∧ is_Some (heap st !! w) ∧ w ∉ registry st
  | AtPush w =>
      next_id st = n + 1 ∧ (id <$> heap st !! w) = Some n ∧ w ∉ registry st
  | AtUnlock _ => next_id st = n
  end.

Record alloc_inv (N : nat) (c : Config) : Prop := {
  ci_safe : crashed c = false;
  ci_nodup : NoDup (registry (shared c));
  ci_ids : ids_of (heap (shared c)) (registry (shared c))
           = Some (seqZ 1 (Z.of_nat (length (registry (shared c)))));
  ci_lock : ∀ i t, threads c !! i = Some t → (pc t ≠ Idle ↔ g_mu c = Some i);
  ci_owner : ∀ i, g_mu c = Some i → is_Some (threads c !! i);
  ci_free : g_mu c = None →
            next_id (shared c) = 1 + Z.of_nat (length (registry (shared c)));
  ci_pc : ∀ i t, threads c !! i = Some t → pc_ok (shared c) (pc t);
  ci_pushed : threads c ≫= pushed ≡ₚ registry (shared c);
  ci_count : (length (registry (shared c)) + sum_list_with remaining (threads c))%nat = N;
  ci_bound : Z.of_nat N < INT_MAX
}.

(** The number of steps thread [t] has still to take. *)
Definition rank (p : mw_pc) : nat :=
  match p with
  | Idle => 0
  | AtNew _ => 7
  | AtKind _ _ => 6
  | AtLoad _ => 5
  | AtIncr _ _ => 4
  | AtSetId _ _ => 3
  | AtPush _ => 2
  | AtUnlock _ => 1
  end.

Definition steps_left (t : Thread) : nat := (8 * length (todo t) + rank (pc t))%nat.

Definition measure (c : Config) : nat := sum_list_with steps_left (threads c).

End Concurrent.

(** Two states agree on the widget graph: the counter, the registry and the
    heap with every field of every widget. *)
Definition same_widgets (s1 s2 : State) : Prop :=
  next_id s1 = next_id s2 ∧ registry s1 = registry s2 ∧ heap s1 = heap s2.

(** A state with one live widget, for concrete checks: the initial state
    after [qt_window_new("App", 640, 480)]. *)
Definition one_window : State :=
  default init_state (fst <$> qt_window_new (Some "App") 640 480 init_state).

(** ** Sequences of facade calls *)

(** Run the calls one after the other; [None] as soon as one of them has
    undefined behaviour. *)
Fixpoint api_runs (calls : list api_call) (st : State) : option State :=
  match calls with
  | [] => Some st
  | call :: rest => st' ← api_run call st; api_runs rest st'
  end.

Definition is_ctor (call : api_call) : bool :=
  match call with
  | CallWindowNew _ _ _ | CallButtonNew _ => true
  | _ => false
  end.

(** How many of the calls are [qt_window_new] or [qt_button_new]. *)
Definition ctor_count (calls : list api_call) : nat :=
  length (List.filter is_ctor calls).

(** Two states agree on everything but the diagnostics: the run flag and
    the widget graph. *)
Definition same_but_log (s1 s2 : State) : Prop :=
  g_running s1 = g_running s2 ∧ same_widgets s1 s2.

(** Whether a call reaches a [trace] when tracing is on at its start:
    the two setters return early on a null handle, [qt_set_verbose] never
    traces, and [qt_init] has switched tracing off before its own [trace]
    when the variable is "0". *)
Definition emits (call : api_call) : bool :=
  match call with
  | CallSetVerbose _ => false
  | CallInit (Some v) => negb (String.eqb v "0")
  | CallSetParent None _ => false
  | CallSetTitle None _ => false
  | _ => true
  end.

(** Whether a call may change the verbosity: [qt_set_verbose] always does,
    [qt_init] when the environment variable is set. *)
Definition sets_verbosity (call : api_call) : bool :=
  match call with
  | CallSetVerbose _ | CallInit (Some _) => true
  | _ => false
  end.

(** The ids of the first [n] widgets ever created: the counter starts at 1
    and is reduced to the [int] range after each increment. *)
Definition wrapped_ids (n : nat) : list Z :=
  (λ j : nat, wrap_int (1 + Z.of_nat j)) <$> seq 0 n.

(** The shape of the registry after [n] constructor calls. *)
Record registry_shape (n : nat) (st : State) : Prop := {
  shape_length : length (registry st) = n;
  shape_nodup : NoDup (registry st);
  shape_dom : dom (heap st) = list_to_set (registry st);
  shape_next : next_id st = wrap_int (1 + Z.of_nat n);
  shape_ids : registry_ids st = Some (wrapped_ids n)
}.

(** ** Live pointers *)

(** A pointer the facade may be given: null, or the address of a live
    widget. *)
Definition usable (st : State) (h : ptr) : Prop :=
  ∀ a, h = Some a → is_Some (heap st !! a).

(** No widget holds a dangling parent pointer. *)
Definition heap_closed (st : State) : Prop :=
  ∀ a obj p, heap st !! a = Some obj → parent obj = Some p →
             is_Some (heap st !! p).

(** The pointers a call dereferences are usable.  [qt_widget_set_parent]
    returns before looking at [parent] when [child] is null. *)
Definition call_ok (st : State) (call : api_call) : Prop :=
  match call with
  | CallSetParent (Some c) p => is_Some (heap st !! c) ∧ usable st p
  | CallShow w => usable st w
  | CallSetTitle w _ => usable st w
  | _ => True
  end.

(** The widget a call writes to, if any. *)
Definition target (call : api_call) : ptr :=
  match call with
  | CallSetParent c _ => c
  | CallSetTitle w _ => w
  | _ => None
  end.

(** ** The event loop: a quit that comes after the loop was entered *)

Definition quit_after_tick (es : list loop_event) : Prop :=
  ∃ es1 es2, es = es1 ++ Quit :: es2 ∧ Tick ∈ es1.

(** ** Concurrent callers against sequential calls *)

Module Linear.
Import Concurrent.

(** [make_widget] called for each kind in turn, by one thread. *)
Definition seq_make (ks : list Kind) (st : State) : State :=
  foldl (λ s k, (make_widget k s).1) st ks.

(** The mutex is held exactly by the threads that are inside the function. *)
Definition lock_inv (c : Config) : Prop :=
  (∀ i t, threads c !! i = Some t → (pc t ≠ Idle ↔ g_mu c = Some i))
  ∧ (∀ i, g_mu c = Some i → is_Some (threads c !! i)).

(** The shared state seen at position [p] of a call [make_widget k] that
    started in state [s0]. *)
Definition midway (s0 : State) (k : Kind) (p : mw_pc) (st : State) : Prop :=
  let w0 := new_addr (heap s0) in
  match p with
  | Idle => False
  | AtNew k' => k' = k ∧ st = s0
  | AtKind k' w =>
      k' = k ∧ w = w0 ∧ st = with_heap (<[w0 := Widget_new]> (heap s0)) s0
  | AtLoad w =>
      w = w0 ∧ st = with_heap (<[w0 := set_kind k Widget_new]> (heap s0)) s0
  | AtIncr w tmp =>
      w = w0 ∧ tmp = next_id s0
      ∧ st = with_heap (<[w0 := set_kind k Widget_new]> (heap s0)) s0
  | AtSetId w tmp =>
      w = w0 ∧ tmp = next_id s0
      ∧ st = with_next_id (wrap_int (next_id s0 + 1))
               (with_heap (<[w0 := set_kind k Widget_new]> (heap s0)) s0)
  | AtPush w =>
      w = w0
      ∧ st = with_next_id (wrap_int (next_id s0 + 1))
               (with_heap (<[w0 := set_id (next_id s0) (set_kind k Widget_new)]>
                             (heap s0)) s0)
  | AtUnlock w => w = w0 ∧ st = (make_widget k s0).1
  end.

(** The calls [ks] have completed, in this order, and [cur] is the kind of
    the call in progress, if there is one. *)
Definition linearized (work : list (list Kind)) (c : Config)
    (ks : list Kind) (cur : option Kind) : Prop :=
  ks ++ option_list cur ++ (threads c ≫= todo) ≡ₚ concat work
  ∧ match g_mu c, cur with
    | None, None => shared c = seq_make ks init_state
    | Some i, Some k =>
        ∃ t, threads c !! i = Some t
             ∧ midway (seq_make ks init_state) k (pc t) (shared c)
    | _, _ => False
    end.

End Linear.

(** A state with a window (address 1) and a button (address 2). *)
Definition window_and_button : State :=
  default init_state
    (api_runs [CallWindowNew (Some "App") 640 480; CallButtonNew (Some "OK")]
              init_state).

(** * Properties *)

(** ** Sanity checks on concrete runs *)

Example window_new_on_init :
  qt_window_new (Some "App") 640 480 init_state ≫= (λ r, heap r.1 !! 1%positive)
  = Some {| kind := Window; title := "App"; label := ""; width := 640;
            height := 480; parent := None; id := 1 |}.
Proof. vm_compute. reflexivity. Qed.

Example quit_traces_once :
  stderr (qt_main_quit init_state) = [Msg "qt_main_quit() — demande d’arrêt."].
Proof. vm_compute. reflexivity. Qed.

Example wrap_int_at_max : wrap_int (INT_MAX + 1) = INT_MIN.
Proof. reflexivity. Qed.

(** ** Machine integers *)

Lemma wrap_int_small z : INT_MIN <= z <= INT_MAX → wrap_int z = z.
Proof.
  unfold wrap_int, INT_MIN, INT_MAX. intros Hz.
  rewrite Z.mod_small; lia.
Qed.

(** ** [trace] touches stderr only *)

Section trace_facts.
Variables (ln : trace_line) (st : State).

Lemma heap_trace : heap (trace ln st) = heap st.
Proof. unfold trace. by destruct (g_verbose st). Qed.

Lemma registry_trace : registry (trace ln st) = registry st.
Proof. unfold trace. by destruct (g_verbose st). Qed.

Lemma next_id_trace : next_id (trace ln st) = next_id st.
Proof. unfold trace. by destruct (g_verbose st). Qed.

Lemma g_running_trace : g_running (trace ln st) = g_running st.
Proof. unfold trace. by destruct (g_verbose st). Qed.

Lemma g_verbose_trace : g_verbose (trace ln st) = g_verbose st.
Proof. unfold trace. by destruct (g_verbose st) eqn:E. Qed.

Lemma trace_quiet : g_verbose st = false → trace ln st = st.
Proof. unfold trace. by intros ->. Qed.
End trace_facts.

Create Rewrite HintDb qtstub.
#[local] Hint Rewrite heap_trace registry_trace next_id_trace g_running_trace
  g_verbose_trace : qtstub.

Lemma same_widgets_trace ln st : same_widgets st (trace ln st).
Proof. unfold same_widgets. by autorewrite with qtstub. Qed.

(** ** [new] and [dump_widget] *)

Lemma new_addr_fresh (h : gmap addr Widget) : h !! new_addr h = None.
Proof. apply not_elem_of_dom. unfold new_addr. apply is_fresh. Qed.

(** [dump_widget] succeeds exactly when [w] and its parent (if any) are
    live, and then only adds a line to stderr. *)
Lemma dump_widget_ok w prefix st obj :
  heap st !! w = Some obj →
  (∀ p, parent obj = Some p → is_Some (heap st !! p)) →
  ∃ ln, dump_widget w prefix st = Some (trace ln st).
Proof.
  intros Hw Hp. unfold dump_widget. rewrite Hw. simpl.
  destruct (parent obj) as [p|] eqn:E.
  - destruct (Hp p eq_refl) as [po Hpo]. rewrite Hpo. simpl. eauto.
  - simpl. eauto.
Qed.

Lemma dump_widget_inv w prefix st st' :
  dump_widget w prefix st = Some st' → ∃ ln, st' = trace ln st.
Proof.
  unfold dump_widget. intros H.
  destruct (heap st !! w) as [obj|]; simpl in H; [|done].
  destruct (match parent obj with None => Some 0 | Some p => id <$> heap st !! p end);
    simpl in H; [|done].
  injection H as <-. eauto.
Qed.

(** ** The constructors, in closed form *)

Lemma make_widget_heap k st :
  heap (make_widget k st).1 !! (make_widget k st).2
  = Some {| kind := k; title := ""; label := ""; width := 0; height := 0;
            parent := None; id := next_id st |}.
Proof. unfold make_widget. simpl. by rewrite lookup_insert_eq. Qed.

Lemma qt_window_new_eq title w h st :
  ∃ st', qt_window_new title w h st = Some (st', Some (new_addr (heap st)))
    ∧ heap st' = <[new_addr (heap st) :=
                    {| kind := Window; title := default "" title; label := "";
                       width := if 0 <? w then w else 800;
                       height := if 0 <? h then h else 600;
                       parent := None; id := next_id st |}]> (heap st)
    ∧ registry st' = registry st ++ [new_addr (heap st)]
    ∧ next_id st' = wrap_int (next_id st + 1)
    ∧ g_running st' = g_running st.
Proof.
  unfold qt_window_new, make_widget. simpl.
  rewrite lookup_insert_eq. simpl. rewrite insert_insert_eq.
  unfold dump_widget. simpl. rewrite lookup_insert_eq. simpl.
  eexists. split; [reflexivity|].
  by autorewrite with qtstub.
Qed.

Lemma qt_button_new_eq label st :
  ∃ st', qt_button_new label st = Some (st', Some (new_addr (heap st)))
    ∧ heap st' = <[new_addr (heap st) :=
                    {| kind := Button; title := ""; label := default "Button" label;
                       width := 0; height := 0;
                       parent := None; id := next_id st |}]> (heap st)
    ∧ registry st' = registry st ++ [new_addr (heap st)]
    ∧ next_id st' = wrap_int (next_id st + 1)
    ∧ g_running st' = g_running st.
Proof.
  unfold qt_button_new, make_widget. simpl.
  rewrite lookup_insert_eq. simpl. rewrite insert_insert_eq.
  unfold dump_widget. simpl. rewrite lookup_insert_eq. simpl.
  eexists. split; [reflexivity|].
  by autorewrite with qtstub.
Qed.

(** ** Ids along a list of pointers *)

Lemma ids_of_seq (h : gmap addr Widget) (l : list addr) (m : Z) :
  ids_of h l = Some (seqZ m (Z.of_nat (length l)))
  ↔ ∀ (j : nat) a, l !! j = Some a → ∃ obj, h !! a = Some obj ∧ id obj = m + Z.of_nat j.
Proof.
  unfold ids_of. rewrite mapM_Some. split.
  - intros HF j a Hj.
    destruct (Forall2_lookup_l _ _ _ _ _ HF Hj) as (y & Hy & Hid).
    apply lookup_seqZ in Hy as [-> _].
    apply fmap_Some in Hid as (obj & Hobj & ->). eauto.
  - intros H. apply Forall2_same_length_lookup_2.
    + rewrite length_seqZ. lia.
    + intros j a y Hj Hy. apply lookup_seqZ in Hy as [-> _].
      destruct (H j a Hj) as (obj & -> & <-). done.
Qed.

Lemma ids_of_insert_fresh (h : gmap addr Widget) (l : list addr) w obj :
  w ∉ l → ids_of (<[w := obj]> h) l = ids_of h l.
Proof.
  intros Hw. unfold ids_of. induction l as [|a l IH]; [done|].
  apply not_elem_of_cons in Hw as [Hne Hw].
  simpl. rewrite lookup_insert_ne by done.
  by rewrite IH.
Qed.

(** ** The registry invariant *)

Lemma init_state_inv : registry_inv init_state.
Proof. split; simpl; try done. apply NoDup_nil_2. Qed.

Lemma registry_inv_lookup st a obj :
  registry_inv st → heap st !! a = Some obj →
  ∃ j : nat, registry st !! j = Some a ∧ id obj = 1 + Z.of_nat j
             ∧ (j < length (registry st))%nat.
Proof.
  intros [Hnd Hdom Hids Hnext Hrange] Ha.
  assert (a ∈ registry st) as Hin.
  { apply (elem_of_list_to_set (C:=gset addr)). rewrite <- Hdom.
    apply elem_of_dom. eauto. }
  apply list_elem_of_lookup in Hin as [j Hj]. exists j.
  unfold registry_ids in Hids.
  destruct (proj1 (ids_of_seq _ _ _) Hids j a Hj) as (obj' & Hobj' & Hid).
  rewrite Ha in Hobj'. injection Hobj' as <-.
  split_and!; [done|done|]. by eapply lookup_lt_Some.
Qed.

Lemma registry_inv_id_range st a obj :
  registry_inv st → heap st !! a = Some obj → 1 <= id obj < next_id st.
Proof.
  intros Hinv Ha.
  destruct (registry_inv_lookup _ _ _ Hinv Ha) as (j & _ & -> & Hlt).
  rewrite (inv_next _ Hinv). lia.
Qed.

(** ** Widget construction *)

(** C8: for every kind [k], [make_widget k] returns a pointer to a widget of
    kind [k] whose id is the value the counter had on entry, a value no
    registered widget carries when the registry invariant holds and the
    counter has not reached [INT_MAX]; its title and label are empty, its
    width and height are 0 and its parent is null.  The pointer is new, it
    is appended to the registry and the widgets already there are left as
    they were. *)
Theorem make_widget_zeroed (k : Kind) (st : State) :
  let st' := (make_widget k st).1 in
  let w := (make_widget k st).2 in
  (∃ obj, heap st' !! w = Some obj
     ∧ kind obj = k ∧ id obj = next_id st
     ∧ title obj = "" ∧ label obj = "" ∧ width obj = 0 ∧ height obj = 0
     ∧ parent obj = None)
  ∧ heap st !! w = None
  ∧ registry st' = registry st ++ [w]
  ∧ (∀ a, a ≠ w → heap st' !! a = heap st !! a)
  ∧ (registry_inv st → next_id st < INT_MAX →
       next_id st < next_id st'
       ∧ ∀ a old, heap st !! a = Some old → id old ≠ next_id st).
Proof.
  intros st' w. subst st' w. split_and!.
  - eexists. split; [apply make_widget_heap|]. simpl. done.
  - apply new_addr_fresh.
  - done.
  - intros a Hne. unfold make_widget. simpl. by rewrite lookup_insert_ne.
  - intros Hinv Hlt. split.
    + unfold make_widget. simpl.
      pose proof (inv_next _ Hinv) as Hn.
      rewrite wrap_int_small; unfold INT_MIN, INT_MAX in *; lia.
    + intros a old Hold.
      pose proof (registry_inv_id_range _ _ _ Hinv Hold). lia.
Qed.

(** The first widget ever made: kind as asked, id 1, and the counter moves on. *)
Lemma make_widget_zeroed_witness :
  ∃ obj, heap (make_widget Generic init_state).1 !! (make_widget Generic init_state).2
         = Some obj ∧ kind obj = Generic ∧ id obj = 1 ∧ title obj = ""
  ∧ next_id init_state < next_id (make_widget Generic init_state).1.
Proof.
  destruct (make_widget_zeroed Generic init_state)
    as ((obj & Hobj & Hk & Hid & Ht & _) & _ & _ & _ & Hfresh).
  assert (next_id init_state < INT_MAX) as Hlt by (vm_compute; reflexivity).
  destruct (Hfresh init_state_inv Hlt) as [Hgrow _].
  exists obj. split_and!; assumption.
Defined.

(** ** The facade constructors *)

(** C2: for every title and all integers [w], [h], [qt_window_new] returns
    a non-null handle to a widget of kind Window; its width is [w] when
    [w > 0] and 800 otherwise, its height is [h] when [h > 0] and 600
    otherwise. *)
Theorem qt_window_new_size (title : cstr) (w h : Z) (st : State) :
  ∃ st' win obj,
    qt_window_new title w h st = Some (st', Some win)
    ∧ heap st' !! win = Some obj
    ∧ kind obj = Window
    ∧ width obj = (if decide (w > 0) then w else 800)
    ∧ height obj = (if decide (h > 0) then h else 600).
Proof.
  destruct (qt_window_new_eq title w h st) as (st' & Heq & Hheap & _).
  eexists st', _, _. split; [exact Heq|].
  rewrite Hheap, lookup_insert_eq. split; [reflexivity|]. simpl.
  split_and!; [done| |]; case_decide; destruct (Z.ltb_spec 0 w), (Z.ltb_spec 0 h);
    done || lia.
Qed.

(** C3, as amended: [qt_button_new] returns a non-null handle to a widget of
    kind Button whose label is the placeholder ["Button"] when the argument
    is null, and the argument itself otherwise, the empty string included. *)
Theorem qt_button_new_label (label : cstr) (st : State) :
  ∃ st' btn obj,
    qt_button_new label st = Some (st', Some btn)
    ∧ heap st' !! btn = Some obj
    ∧ kind obj = Button
    ∧ (label = None → qtstub.label obj = "Button")
    ∧ (∀ s, label = Some s → qtstub.label obj = s).
Proof.
  destruct (qt_button_new_eq label st) as (st' & Heq & Hheap & _).
  eexists st', _, _. split; [exact Heq|].
  rewrite Hheap, lookup_insert_eq. split; [reflexivity|]. simpl.
  split_and!; [done| |]; by intros; subst.
Qed.

(** A button created with a null label, in the initial state. *)
Lemma qt_button_new_label_witness :
  ∃ st' btn obj,
    qt_button_new None init_state = Some (st', Some btn)
    ∧ heap st' !! btn = Some obj ∧ label obj = "Button".
Proof.
  destruct (qt_button_new_label None init_state)
    as (st' & btn & obj & Heq & Hobj & _ & Hnull & _).
  exists st', btn, obj. split_and!; [done|done|]. apply Hnull. reflexivity.
Defined.

(** C3 fails for the empty string: the button created from [""] keeps the
    empty label, not the placeholder. *)
Lemma qt_button_new_empty_label :
  ∃ st' btn obj,
    qt_button_new (Some "") init_state = Some (st', Some btn)
    ∧ heap st' !! btn = Some obj
    ∧ kind obj = Button
    ∧ label obj = ""
    ∧ label obj ≠ "Button".
Proof.
  eexists _, _, _. split; [vm_compute; reflexivity|].
  split; [vm_compute; reflexivity|]. done.
Qed.

(** ** The mutators *)

(** Writing a field of a live widget and dumping it afterwards succeeds as
    long as the parent pointer it then holds is null or live. *)
Lemma write_then_dump st w obj obj' prefix :
  heap st !! w = Some obj →
  (∀ p, parent obj' = Some p → is_Some (heap st !! p)) →
  ∃ ln, dump_widget w prefix (with_heap (<[w := obj']> (heap st)) st)
        = Some (trace ln (with_heap (<[w := obj']> (heap st)) st)).
Proof.
  intros Hw Hp. eapply dump_widget_ok; simpl.
  - apply lookup_insert_eq.
  - intros p Hpar. destruct (decide (w = p)) as [<-|Hne].
    + rewrite lookup_insert_eq. eauto.
    + rewrite lookup_insert_ne by done. auto.
Qed.

Lemma qt_widget_set_parent_eq st c obj p :
  heap st !! c = Some obj →
  (∀ a, p = Some a → is_Some (heap st !! a)) →
  ∃ ln, qt_widget_set_parent (Some c) p st
        = Some (trace ln (with_heap (<[c := set_parent p obj]> (heap st)) st)).
Proof.
  intros Hc Hp. unfold qt_widget_set_parent. rewrite Hc. simpl.
  eapply write_then_dump; eauto.
Qed.

Lemma qt_widget_set_title_eq st w obj text :
  heap st !! w = Some obj →
  (∀ a, parent obj = Some a → is_Some (heap st !! a)) →
  ∃ ln, qt_widget_set_title (Some w) text st
        = Some (trace ln (with_heap (<[w := set_title (default "" text) obj]> (heap st)) st)).
Proof.
  intros Hw Hp. unfold qt_widget_set_title. rewrite Hw. simpl.
  eapply write_then_dump; eauto.
Qed.

(** C5: for every live child and every parent argument that is null or a
    live widget (of whatever kind, the child itself included),
    [qt_widget_set_parent] returns normally and the child's parent field is
    the argument; nothing else in the widget graph changes.  With a null
    parent the child ends up with no parent. *)
Theorem qt_widget_set_parent_unconditional (st : State) (c : addr)
    (obj : Widget) (p : ptr) :
  heap st !! c = Some obj →
  (∀ a, p = Some a → is_Some (heap st !! a)) →
  (∃ st', qt_widget_set_parent (Some c) p st = Some st'
     ∧ heap st' !! c = Some (set_parent p obj)
     ∧ (parent <$> heap st' !! c) = Some p
     ∧ (∀ a, a ≠ c → heap st' !! a = heap st !! a)
     ∧ registry st' = registry st ∧ next_id st' = next_id st)
  ∧ (∃ st', qt_widget_set_parent (Some c) None st = Some st'
     ∧ (parent <$> heap st' !! c) = Some None).
Proof.
  intros Hc Hp. split.
  - destruct (qt_widget_set_parent_eq st c obj p Hc Hp) as [ln ->].
    eexists. split; [reflexivity|]. autorewrite with qtstub. simpl.
    rewrite lookup_insert_eq. split_and!; try done.
    intros a Hne. by rewrite lookup_insert_ne.
  - destruct (qt_widget_set_parent_eq st c obj None Hc) as [ln ->]; [done|].
    eexists. split; [reflexivity|]. autorewrite with qtstub. simpl.
    by rewrite lookup_insert_eq.
Qed.

(** C6: with a null handle, [qt_widget_show], [qt_widget_set_title] and
    [qt_widget_set_parent] return normally and leave the counter, the
    registry and the heap (every field of every widget) as they were; the
    run flag is untouched as well.  The last two leave the whole state
    unchanged; [qt_widget_show] may write its one line to stderr. *)
Theorem null_handle_no_mutation (st : State) (text : cstr) (p : ptr) :
  (∃ st', qt_widget_show None st = Some st'
          ∧ same_widgets st st' ∧ g_running st' = g_running st)
  ∧ qt_widget_set_title None text st = Some st
  ∧ qt_widget_set_parent None p st = Some st.
Proof.
  split_and!; try reflexivity.
  eexists. split; [reflexivity|]. split.
  - apply same_widgets_trace.
  - apply g_running_trace.
Qed.


Example one_window_heap :
  heap one_window !! 1%positive
  = Some {| kind := Window; title := "App"; label := ""; width := 640;
            height := 480; parent := None; id := 1 |}.
Proof. vm_compute. reflexivity. Qed.

(** A window made its own parent: accepted as it is. *)
Lemma qt_widget_set_parent_unconditional_witness :
  ∃ st', qt_widget_set_parent (Some 1%positive) (Some 1%positive) one_window = Some st'
         ∧ (parent <$> heap st' !! 1%positive) = Some (Some 1%positive).
Proof.
  destruct (qt_widget_set_parent_unconditional one_window 1%positive
              {| kind := Window; title := "App"; label := ""; width := 640;
                 height := 480; parent := None; id := 1 |} (Some 1%positive))
    as [(st' & Heq & _ & Hpar & _) _].
  - vm_compute. reflexivity.
  - intros a [= <-]. vm_compute. eauto.
  - exists st'. split; assumption.
Defined.


(** ** Retitling and the end-to-end scenario *)


#[local] Arguments qt_widget_set_parent : simpl never.
#[local] Arguments qt_widget_set_title : simpl never.
#[local] Arguments qt_window_new : simpl never.
#[local] Arguments qt_button_new : simpl never.



(** ** Sequential identity allocation *)

(** Appending a new widget that carries the counter's value, and advancing
    the counter, keeps the registry invariant. *)
Lemma registry_inv_append st st' obj :
  registry_inv st → next_id st < INT_MAX →
  heap st' = <[new_addr (heap st) := obj]> (heap st) →
  id obj = next_id st →
  registry st' = registry st ++ [new_addr (heap st)] →
  next_id st' = wrap_int (next_id st + 1) →
  registry_inv st' ∧ next_id st' = next_id st + 1.
Proof.
  intros Hinv Hlt Hheap Hid Hreg Hnext.
  pose proof (inv_next _ Hinv) as Hn.
  assert (next_id st' = next_id st + 1) as Hn'.
  { rewrite Hnext. apply wrap_int_small. unfold INT_MIN, INT_MAX in *. lia. }
  assert (new_addr (heap st) ∉ registry st) as Hnew.
  { rewrite <- (elem_of_list_to_set (C:=gset addr)), <- (inv_dom _ Hinv).
    apply not_elem_of_dom, new_addr_fresh. }
  split; [|done]. split.
  - rewrite Hreg. apply NoDup_app. split_and!.
    + apply Hinv.
    + intros x Hx Hx'. apply list_elem_of_singleton in Hx' as ->. done.
    + apply NoDup_singleton.
  - rewrite Hheap, Hreg, dom_insert_L, list_to_set_snoc_L, (inv_dom _ Hinv).
    apply (comm_L (∪)).
  - unfold registry_ids. apply ids_of_seq. intros j a Hj.
    rewrite Hreg in Hj. rewrite Hheap.
    apply lookup_snoc_Some in Hj as [[Hlt' Hj]|[Hlen <-]].
    + assert (a ≠ new_addr (heap st)) as Hne.
      { intros ->. apply Hnew. by eapply list_elem_of_lookup_2. }
      rewrite lookup_insert_ne by done.
      exact (proj1 (ids_of_seq _ _ _) (inv_ids _ Hinv) j a Hj).
    + rewrite lookup_insert_eq. eexists. split; [done|]. lia.
  - rewrite Hn', Hreg, length_app. simpl. lia.
  - lia.
Qed.

Lemma run_ctor_inv c st :
  registry_inv st → next_id st < INT_MAX →
  ∃ st', run_ctor c st = Some (st', Some (new_addr (heap st)))
    ∧ registry_inv st'
    ∧ registry st' = registry st ++ [new_addr (heap st)]
    ∧ next_id st' = next_id st + 1.
Proof.
  intros Hinv Hlt. destruct c as [t w h|l]; simpl.
  - destruct (qt_window_new_eq t w h st) as (st' & Heq & Hh & Hr & Hn & _).
    exists st'. split; [done|].
    destruct (registry_inv_append st st' _ Hinv Hlt Hh eq_refl Hr Hn) as [? ?].
    done.
  - destruct (qt_button_new_eq l st) as (st' & Heq & Hh & Hr & Hn & _).
    exists st'. split; [done|].
    destruct (registry_inv_append st st' _ Hinv Hlt Hh eq_refl Hr Hn) as [? ?].
    done.
Qed.

Lemma run_ctors_inv cs : ∀ st,
  registry_inv st → next_id st + Z.of_nat (length cs) <= INT_MAX →
  ∃ st' hs, run_ctors cs st = Some (st', Some <$> hs)
    ∧ registry_inv st'
    ∧ registry st' = registry st ++ hs
    ∧ length hs = length cs.
Proof.
  induction cs as [|c cs IH]; intros st Hinv Hle.
  - exists st, []. simpl. by rewrite app_nil_r.
  - simpl in Hle.
    destruct (run_ctor_inv c st Hinv) as (s1 & Heq & Hinv1 & Hr1 & Hn1); [lia|].
    destruct (IH s1 Hinv1) as (s2 & hs & Heq2 & Hinv2 & Hr2 & Hlen); [lia|].
    exists s2, (new_addr (heap st) :: hs).
    cbn [run_ctors]. rewrite Heq. simpl. rewrite Heq2. simpl.
    split_and!; try done.
    + by rewrite Hr2, Hr1, <- app_assoc.
    + by rewrite Hlen.
Qed.

(** C1: [N] constructor calls ([qt_window_new] / [qt_button_new], any mix),
    run one after the other from the initial state with [N] below
    [INT_MAX], all return non-null handles; the ids of the widgets they
    point to are 1, 2, ..., N in creation order, hence pairwise distinct;
    the registry holds exactly these pointers in creation order, without
    repetition, and they are all the live widgets; the counter, 1 at the
    start, is [k + 1] after the first [k] calls. *)
Theorem sequential_ids (cs : list ctor_call) :
  Z.of_nat (length cs) < INT_MAX →
  next_id init_state = 1
  ∧ ∃ st' hs, run_ctors cs init_state = Some (st', Some <$> hs)
    ∧ ids_of (heap st') hs = Some (seqZ 1 (Z.of_nat (length cs)))
    ∧ NoDup (seqZ 1 (Z.of_nat (length cs)))
    ∧ registry st' = hs
    ∧ NoDup hs
    ∧ dom (heap st') = list_to_set hs
    ∧ ∀ k : nat, (k <= length cs)%nat →
        ∃ r, run_ctors (take k cs) init_state = Some r
             ∧ next_id r.1 = 1 + Z.of_nat k.
Proof.
  intros Hlt. split; [done|].
  destruct (run_ctors_inv cs init_state init_state_inv)
    as (st' & hs & Heq & Hinv & Hreg & Hlen); [simpl; lia|].
  simpl in Hreg. exists st', hs. split_and!; try done.
  - rewrite <- Hlen, <- Hreg. apply Hinv.
  - apply NoDup_seqZ.
  - rewrite <- Hreg. apply Hinv.
  - rewrite <- Hreg. apply Hinv.
  - intros k Hk.
    destruct (run_ctors_inv (take k cs) init_state init_state_inv)
      as (sk & hk & Heqk & Hinvk & Hregk & Hlenk).
    { rewrite length_take. simpl. lia. }
    eexists. split; [exact Heqk|]. simpl.
    rewrite (inv_next _ Hinvk), Hregk. simpl.
    rewrite Hlenk, length_take. lia.
Qed.

(** A window and two buttons get the ids 1, 2, 3. *)
Lemma sequential_ids_witness :
  ∃ st' hs,
    run_ctors [NewWindow (Some "App") 640 480; NewButton None; NewButton (Some "OK")]
      init_state = Some (st', Some <$> hs)
    ∧ ids_of (heap st') hs = Some [1; 2; 3]
    ∧ registry st' = hs.
Proof.
  destruct (sequential_ids
              [NewWindow (Some "App") 640 480; NewButton None; NewButton (Some "OK")])
    as (_ & st' & hs & Heq & Hids & _ & Hreg & _).
  - vm_compute. reflexivity.
  - exists st', hs. split_and!; assumption.
Defined.

(** ** The event loop *)

Lemma loop_exec_app es1 es2 c :
  loop_exec (es1 ++ es2) c = loop_exec es2 (loop_exec es1 c).
Proof. unfold loop_exec. apply foldl_app. Qed.

Lemma g_running_quit st : g_running (qt_main_quit st) = false.
Proof. reflexivity. Qed.

Lemma same_widgets_quit st : same_widgets st (qt_main_quit st).
Proof.
  unfold same_widgets, qt_main_quit. simpl. by autorewrite with qtstub.
Qed.

Lemma same_widgets_trans s1 s2 s3 :
  same_widgets s1 s2 → same_widgets s2 s3 → same_widgets s1 s3.
Proof. unfold same_widgets. intros (-> & -> & ->) (-> & -> & ->). done. Qed.

(** *** The invariant across the whole facade *)

Lemma ids_of_insert_same (h : gmap addr Widget) (l : list addr) w obj obj' :
  h !! w = Some obj → id obj' = id obj →
  ids_of (<[w := obj']> h) l = ids_of h l.
Proof.
  intros Hw Hid. unfold ids_of. induction l as [|a l IH]; [done|].
  simpl. rewrite IH. destruct (decide (w = a)) as [<-|Hne].
  - rewrite lookup_insert_eq, Hw. simpl. by rewrite Hid.
  - by rewrite lookup_insert_ne.
Qed.

Lemma registry_inv_same st st' :
  same_widgets st st' → registry_inv st → registry_inv st'.
Proof.
  intros (Hn & Hr & Hh) [? ? Hids ? ?]. unfold registry_ids in Hids.
  split; unfold registry_ids; rewrite <- ?Hn, <- ?Hr, <- ?Hh; done.
Qed.

(** Overwriting a live widget with one that carries the same id. *)
Lemma registry_inv_write st w obj obj' :
  registry_inv st → heap st !! w = Some obj → id obj' = id obj →
  registry_inv (with_heap (<[w := obj']> (heap st)) st).
Proof.
  intros [? Hdom Hids ? ?] Hw Hid. split; simpl; try done.
  - rewrite dom_insert_lookup_L; [done|eauto].
  - unfold registry_ids in *. simpl. by erewrite ids_of_insert_same.
Qed.

(** Whatever the host calls, with whatever arguments, a call that returns
    leaves the registry invariant in place, as long as the counter has not
    reached [INT_MAX]. *)
Lemma api_run_inv call st st' :
  registry_inv st → next_id st < INT_MAX →
  api_run call st = Some st' → registry_inv st'.
Proof.
  intros Hinv Hlt Hrun. destruct call as [on|env|t w h|l|c p|w|w t|]; simpl in Hrun.
  - injection Hrun as <-. by destruct Hinv.
  - injection Hrun as <-. unfold qt_init.
    eapply registry_inv_same; [apply same_widgets_trace|].
    destruct env; [|done]. by destruct Hinv.
  - destruct (run_ctor_inv (NewWindow t w h) st Hinv Hlt) as (s & Heq & Hs & _).
    simpl in Heq. rewrite Heq in Hrun. by injection Hrun as <-.
  - destruct (run_ctor_inv (NewButton l) st Hinv Hlt) as (s & Heq & Hs & _).
    simpl in Heq. rewrite Heq in Hrun. by injection Hrun as <-.
  - unfold qt_widget_set_parent in Hrun. destruct c as [c|]; [|by injection Hrun as <-].
    destruct (heap st !! c) as [obj|] eqn:Hc; [|done]. simpl in Hrun.
    apply dump_widget_inv in Hrun as [ln ->].
    eapply registry_inv_same; [apply same_widgets_trace|].
    by eapply registry_inv_write.
  - unfold qt_widget_show in Hrun. destruct w as [w|].
    + apply dump_widget_inv in Hrun as [ln ->].
      eapply registry_inv_same; [apply same_widgets_trace|done].
    + injection Hrun as <-.
      eapply registry_inv_same; [apply same_widgets_trace|done].
  - unfold qt_widget_set_title in Hrun. destruct w as [w|]; [|by injection Hrun as <-].
    destruct (heap st !! w) as [obj|] eqn:Hw; [|done]. simpl in Hrun.
    apply dump_widget_inv in Hrun as [ln ->].
    eapply registry_inv_same; [apply same_widgets_trace|].
    by eapply registry_inv_write.
  - injection Hrun as <-.
    eapply registry_inv_same; [apply same_widgets_quit|done].
Qed.

(** At [INT_MAX] the post-increment leaves the representable range: the
    counter comes back as [INT_MIN]. *)
Lemma make_widget_at_int_max k st :
  next_id st = INT_MAX → next_id (make_widget k st).1 = INT_MIN.
Proof. intros H. unfold make_widget. simpl. by rewrite H. Qed.

(** Quits that arrive before [qt_main] has started leave it not started,
    the flag down and the widgets alone. *)
Lemma quits_while_idle k : ∀ st,
  g_running st = false →
  let c := loop_exec (replicate k Quit) (MainEntry, st) in
  c.1 = MainEntry ∧ g_running c.2 = false ∧ same_widgets st c.2.
Proof.
  induction k as [|k IH]; intros st Hrun; simpl.
  - done.
  - destruct (IH (qt_main_quit st) (g_running_quit st)) as (Hpc & Hr & Hsw).
    split_and!; [exact Hpc|exact Hr|].
    eapply same_widgets_trans; [apply same_widgets_quit|exact Hsw].
Qed.

Lemma polling_tick c : polling c → polling (qt_main_step c).
Proof.
  destruct c as [pc st]. intros [Hrun [Hpc|Hpc]]; simpl in *; subst pc;
    unfold qt_main_step, polling; simpl.
  - rewrite Hrun. simpl. auto.
  - auto.
Qed.

Lemma polling_ticks n : ∀ c, polling c → polling (loop_exec (replicate n Tick) c).
Proof.
  induction n as [|n IH]; intros c Hc; simpl; [done|].
  apply IH, polling_tick, Hc.
Qed.

Lemma entry_tick st : polling (qt_main_step (MainEntry, st)).
Proof. unfold qt_main_step, polling. simpl. auto. Qed.

Lemma returned_ticks n r : ∀ st,
  g_running st = false →
  let c := loop_exec (replicate n Tick) (MainReturned r, st) in
  c.1 = MainReturned r ∧ g_running c.2 = false.
Proof.
  induction n as [|n IH]; intros st Hrun; simpl; [done|].
  apply IH, Hrun.
Qed.

Lemma loop_exec_cons e es c :
  loop_exec (e :: es) c = loop_exec es (loop_exec1 c e).
Proof. reflexivity. Qed.

Lemma tick_sleep st : qt_main_step (MainSleep, st) = (MainTest, st).
Proof. reflexivity. Qed.

Lemma tick_test_down st :
  g_running st = false →
  qt_main_step (MainTest, st)
  = (MainReturned 0, trace (Msg "qt_main() — fin boucle simulée.") st).
Proof. intros Hrun. unfold qt_main_step. simpl. by rewrite Hrun. Qed.

(** Once the flag is down, a thread inside the loop is out of [qt_main],
    with 0, after at most two of its own steps. *)
Lemma flag_down_returns m pc st :
  g_running st = false → pc = MainTest ∨ pc = MainSleep →
  let c := loop_exec (replicate (2 + m) Tick) (pc, st) in
  c.1 = MainReturned 0 ∧ g_running c.2 = false.
Proof.
  intros Hrun Hpc.
  change (replicate (2 + m) Tick) with (Tick :: Tick :: replicate m Tick).
  rewrite !loop_exec_cons. cbn [loop_exec1].
  destruct Hpc as [-> | ->].
  - rewrite (tick_test_down _ Hrun).
    apply (returned_ticks (S m)). by rewrite g_running_trace.
  - rewrite tick_sleep, (tick_test_down _ Hrun).
    apply (returned_ticks m). by rewrite g_running_trace.
Qed.

(** C7: [qt_main_quit] called any number of times while the loop is Idle
    leaves it Idle ([qt_main] not entered, flag down, widgets untouched),
    and a second call changes the flag no further.  A [qt_main] started
    afterwards raises the flag with its first step and has not returned for
    as long as nobody quits; after the next [qt_main_quit] it returns 0
    within two of its own steps and the loop is Idle again. *)
Theorem quit_before_main (st : State) (k n m : nat) :
  g_running st = false →
  let idle := loop_exec (replicate k Quit) (MainEntry, st) in
  (idle.1 = MainEntry ∧ g_running idle.2 = false ∧ same_widgets st idle.2)
  ∧ g_running (qt_main_quit st) = false
  ∧ g_running (qt_main_quit (qt_main_quit st)) = g_running (qt_main_quit st)
  ∧ (let c := loop_exec (replicate (S n) Tick) idle in
     g_running c.2 = true ∧ returned c.1 = false)
  ∧ (let c := loop_exec (replicate (S n) Tick ++ Quit :: replicate (2 + m) Tick) idle in
     c.1 = MainReturned 0 ∧ g_running c.2 = false).
Proof.
  intros Hrun idle.
  destruct (quits_while_idle k st Hrun) as (Hpc & Hr & Hsw). fold idle in Hpc, Hr, Hsw.
  assert (polling (loop_exec (replicate (S n) Tick) idle)) as Hpoll.
  { destruct idle as [pc0 st0]. simpl in Hpc. subst pc0. simpl.
    apply polling_ticks, entry_tick. }
  split_and!; [done|done|done|reflexivity|reflexivity| |].
  - cbv zeta. destruct Hpoll as [Hup Hp]. split; [exact Hup|].
    destruct Hp as [Hp|Hp]; by rewrite Hp.
  - cbv zeta. rewrite loop_exec_app.
    destruct (loop_exec (replicate (S n) Tick) idle) as [pc1 st1].
    destruct Hpoll as [_ Hp]. simpl in Hp.
    rewrite loop_exec_cons. cbn [loop_exec1 fst snd].
    by apply flag_down_returns.
Qed.

(** Two early quits, three steps inside [qt_main], a quit, two more steps. *)
Lemma quit_before_main_witness :
  let c := loop_exec [Quit; Quit; Tick; Tick; Tick; Quit; Tick; Tick] (MainEntry, init_state) in
  c.1 = MainReturned 0 ∧ g_running c.2 = false.
Proof.
  assert (g_running init_state = false) as Hidle by reflexivity.
  destruct (quit_before_main init_state 2 2 0 Hidle) as (_ & _ & _ & _ & Hret).
  exact Hret.
Defined.

Example main_blocked_after_quit_before :
  loop_exec [Quit; Tick; Tick; Tick; Tick; Tick] (MainEntry, with_verbose false init_state)
  = (MainTest, with_running true (with_verbose false init_state)).
Proof. vm_compute. reflexivity. Qed.

(** ** Concurrent identity allocation *)

Import Concurrent.

Example two_threads_interleaved :
  let c := run [0; 1; 0; 1; 0; 0; 0; 1; 0; 0; 0; 1; 1; 1; 1; 1; 1; 1; 1; 0; 0; 0; 0; 0; 0; 0; 0]%nat
               (start [[Window; Button]; [Button]]) in
  finished c = true ∧ crashed c = false
  ∧ issued c = Some [1; 3; 2] ∧ registry_ids (shared c) = Some [1; 2; 3].
Proof. vm_compute. done. Qed.

Lemma insert_split {A} (l : list A) (i : nat) (x x' : A) :
  l !! i = Some x →
  ∃ l1 l2, l = l1 ++ x :: l2 ∧ <[i:=x']> l = l1 ++ x' :: l2.
Proof.
  intros Hi. exists (take i l), (drop (S i) l). split.
  - by rewrite take_drop_middle.
  - apply insert_take_drop. by eapply lookup_lt_Some.
Qed.

Lemma ids_of_live (h : gmap addr Widget) (l : list addr) k a :
  ids_of h l = Some k → a ∈ l → is_Some (h !! a).
Proof.
  unfold ids_of. intros Hk Ha.
  assert (is_Some (mapM (λ a, id <$> h !! a) l)) as Hs by eauto.
  apply mapM_is_Some_1 in Hs. rewrite Forall_forall in Hs.
  specialize (Hs a Ha). simpl in Hs. by apply fmap_is_Some in Hs.
Qed.

Lemma ids_of_snoc (h : gmap addr Widget) (l : list addr) w :
  ids_of h l = Some (seqZ 1 (Z.of_nat (length l))) →
  (id <$> h !! w) = Some (1 + Z.of_nat (length l)) →
  ids_of h (l ++ [w]) = Some (seqZ 1 (Z.of_nat (length (l ++ [w])))).
Proof.
  intros Hl Hw. apply ids_of_seq. intros j a Hj.
  apply lookup_snoc_Some in Hj as [[_ Hj]|[-> <-]].
  - exact (proj1 (ids_of_seq _ _ _) Hl j a Hj).
  - apply fmap_Some in Hw as (obj & -> & ->). eauto.
Qed.

(** Threads other than the one allowed to move are outside the critical
    section. *)
Lemma others_idle N c i j t :
  alloc_inv N c → g_mu c = None ∨ g_mu c = Some i →
  j ≠ i → threads c !! j = Some t → pc t = Idle.
Proof.
  intros Hinv Hmu Hne Hj.
  pose proof (ci_lock _ _ Hinv j t Hj) as Hlock.
  destruct (pc t); try done;
    (assert (g_mu c = Some j) as Hown by (by apply Hlock));
    destruct Hmu as [Hmu|Hmu]; rewrite Hmu in Hown; congruence.
Qed.

(** One thread moves from [t] to [t'], the shared state from [shared c] to
    [st'], and [extra] is what the move appends to the registry: the
    invariant carries over provided the mover's own obligations are met. *)
Lemma alloc_inv_update N c i t mu' st' t' extra :
  alloc_inv N c →
  threads c !! i = Some t →
  g_mu c = None ∨ g_mu c = Some i →
  (pc t' = Idle → mu' = None) →
  (pc t' ≠ Idle → mu' = Some i) →
  pc_ok st' (pc t') →
  (pc t' = Idle → next_id st' = 1 + Z.of_nat (length (registry st'))) →
  ids_of (heap st') (registry st')
    = Some (seqZ 1 (Z.of_nat (length (registry st')))) →
  registry st' = registry (shared c) ++ extra →
  pushed t' = pushed t ++ extra →
  NoDup extra → (∀ w, w ∈ extra → w ∉ registry (shared c)) →
  (length extra + remaining t' = remaining t)%nat →
  alloc_inv N {| shared := st'; g_mu := mu'; threads := <[i:=t']> (threads c);
                 crashed := crashed c |}.
Proof.
  intros Hinv Hi Hmu Hidle Hbusy Hpc Hfree Hids Hreg Hpush Hnd Hnew Hrem.
  assert (i < length (threads c))%nat as Hlen by (by eapply lookup_lt_Some).
  assert (∀ j, mu' = Some j → j = i) as Hmover.
  { intros j Hj. destruct (pc t') eqn:E;
      try (rewrite Hbusy in Hj by done; congruence).
    rewrite Hidle in Hj by done. done. }
  destruct (insert_split (threads c) i t t' Hi) as (l1 & l2 & Hl & Hl').
  split; simpl.
  - apply Hinv.
  - rewrite Hreg. apply NoDup_app. split_and!; [apply Hinv| |done].
    intros x Hx Hx'. by apply (Hnew x).
  - done.
  - intros j tj Hj. destruct (decide (j = i)) as [->|Hne].
    + rewrite list_lookup_insert_eq in Hj by done. injection Hj as <-.
      split; [done|]. intros Hown Hidl. rewrite Hidle in Hown by done. done.
    + rewrite list_lookup_insert_ne in Hj by done.
      rewrite (others_idle N c i j tj Hinv Hmu Hne Hj).
      split; [done|]. intros Hown. by apply Hmover in Hown.
  - intros j Hj. apply Hmover in Hj as ->.
    rewrite list_lookup_insert_eq by done. eauto.
  - intros Hnone. apply Hfree. destruct (pc t') eqn:E; try done;
      rewrite Hbusy in Hnone by done; done.
  - intros j tj Hj. destruct (decide (j = i)) as [->|Hne].
    + rewrite list_lookup_insert_eq in Hj by done. by injection Hj as <-.
    + rewrite list_lookup_insert_ne in Hj by done.
      by rewrite (others_idle N c i j tj Hinv Hmu Hne Hj).
  - pose proof (ci_pushed _ _ Hinv) as Hp. rewrite Hl in Hp.
    rewrite Hl', Hreg, <- Hp, !bind_app, !bind_cons, Hpush.
    rewrite <- !app_assoc. f_equiv. f_equiv. apply Permutation_app_comm.
  - pose proof (ci_count _ _ Hinv) as Hc. rewrite Hl in Hc.
    rewrite sum_list_with_app in Hc. simpl in Hc.
    rewrite Hl', Hreg, length_app, sum_list_with_app. simpl. lia.
  - apply Hinv.
Qed.

Lemma new_addr_unregistered N c :
  alloc_inv N c → new_addr (heap (shared c)) ∉ registry (shared c).
Proof.
  intros Hinv Hin.
  destruct (ids_of_live _ _ _ _ (ci_ids _ _ Hinv) Hin) as [obj Hobj].
  by rewrite new_addr_fresh in Hobj.
Qed.

(** The thread in the critical section still has a widget to push, so the
    registry is short of [N] and the counter short of [INT_MAX]. *)
Lemma registry_short N c i t :
  alloc_inv N c → threads c !! i = Some t → (1 <= remaining t)%nat →
  Z.of_nat (length (registry (shared c))) + 2 <= INT_MAX.
Proof.
  intros Hinv Hi Hrem.
  pose proof (ci_count _ _ Hinv) as Hc. pose proof (ci_bound _ _ Hinv) as Hb.
  assert (remaining t <= sum_list_with remaining (threads c))%nat as Hle.
  { apply sum_list_with_in. by eapply list_elem_of_lookup_2. }
  lia.
Qed.

(** Apply [alloc_inv_update] for a move that appends [extra], and clear
    the obligations that hold by computation. *)
Ltac mover N c i extra Hinv Hi :=
  apply (alloc_inv_update N c i _ _ _ _ extra Hinv Hi); simpl;
  rewrite ?app_nil_r;
  auto using NoDup_nil_2, NoDup_singleton;
  try done;
  try (by intros ? ?%elem_of_nil).

(** Every step of every thread keeps the invariant. *)
Lemma alloc_inv_step N c i : alloc_inv N c → alloc_inv N (step c i).
Proof.
  intros Hinv. unfold step.
  destruct (threads c !! i) as [t|] eqn:Hi; [|done].
  pose proof (ci_pc _ _ Hinv i t Hi) as Hpc.
  pose proof (ci_lock _ _ Hinv i t Hi) as Hlock.
  pose proof (ci_ids _ _ Hinv) as Hids.
  unfold thread_step.
  destruct t as [p td g]. destruct p as [|k|k w|w|w tmp|w tmp|w|w]; simpl in *.
  - (* lock *)
    destruct td as [|k ks]; [done|].
    destruct (g_mu c) eqn:Hmu; [done|].
    mover N c i (@nil addr) Hinv Hi.
    + by apply (ci_free _ _ Hinv).
    + unfold remaining. simpl. lia.
  - (* new *)
    assert (g_mu c = Some i) as Hown by (by apply Hlock).
    mover N c i (@nil addr) Hinv Hi.
    + split_and!; [done| |by apply (new_addr_unregistered N)].
      rewrite lookup_insert_eq. eauto.
    + rewrite ids_of_insert_fresh; [done|by apply (new_addr_unregistered N)].
  - (* kind *)
    assert (g_mu c = Some i) as Hown by (by apply Hlock).
    destruct Hpc as (Hn & [obj Hobj] & Hw). rewrite Hobj.
    mover N c i (@nil addr) Hinv Hi.
    + split_and!; [done| |done]. rewrite lookup_insert_eq. eauto.
    + by rewrite ids_of_insert_fresh.
  - (* read of the counter *)
    assert (g_mu c = Some i) as Hown by (by apply Hlock).
    destruct Hpc as (Hn & Hlive & Hw).
    mover N c i (@nil addr) Hinv Hi.
  - (* write of the counter *)
    assert (g_mu c = Some i) as Hown by (by apply Hlock).
    destruct Hpc as (Htmp & Hn & Hlive & Hw).
    pose proof (registry_short N c i _ Hinv Hi) as Hshort.
    mover N c i (@nil addr) Hinv Hi.
    split_and!; try done. rewrite wrap_int_small; [lia|].
    unfold remaining in Hshort. simpl in Hshort.
    unfold INT_MIN, INT_MAX in *. lia.
  - (* id *)
    assert (g_mu c = Some i) as Hown by (by apply Hlock).
    destruct Hpc as (Htmp & Hn & [obj Hobj] & Hw). rewrite Hobj.
    mover N c i (@nil addr) Hinv Hi.
    + split_and!; [done| |done]. rewrite lookup_insert_eq. simpl. by rewrite Htmp.
    + by rewrite ids_of_insert_fresh.
  - (* push *)
    assert (g_mu c = Some i) as Hown by (by apply Hlock).
    destruct Hpc as (Hn & Hid & Hw).
    mover N c i [w] Hinv Hi.
    + rewrite length_app. simpl. lia.
    + by apply ids_of_snoc.
    + unfold pushed. simpl. by rewrite app_nil_r.
    + intros a Ha. by apply list_elem_of_singleton in Ha as ->.
    + unfold remaining. simpl. lia.
  - (* unlock *)
    mover N c i (@nil addr) Hinv Hi.
    + right. by apply Hlock.
    + unfold pushed. simpl. by rewrite app_nil_r.
Qed.

Lemma run_app s1 s2 c : run (s1 ++ s2) c = run s2 (run s1 c).
Proof. unfold run. apply foldl_app. Qed.

Lemma alloc_inv_run N sched : ∀ c, alloc_inv N c → alloc_inv N (run sched c).
Proof.
  induction sched as [|i sched IH]; intros c Hinv; [done|].
  apply IH, alloc_inv_step, Hinv.
Qed.

Lemma start_pushed work : threads (start work) ≫= pushed = [].
Proof. simpl. induction work as [|ks work IH]; [done|]. by rewrite fmap_cons, bind_cons, IH. Qed.

Lemma start_remaining work :
  sum_list_with remaining (threads (start work)) = total_work work.
Proof.
  unfold total_work. simpl. induction work as [|ks work IH]; [done|].
  rewrite fmap_cons. simpl. rewrite length_app, <- IH.
  unfold remaining at 1. simpl. lia.
Qed.

Lemma alloc_inv_start work :
  Z.of_nat (total_work work) < INT_MAX → alloc_inv (total_work work) (start work).
Proof.
  intros Hb. split; try done.
  - apply NoDup_nil_2.
  - intros i t Hi. simpl in Hi. rewrite list_lookup_fmap in Hi.
    destruct (work !! i); simplify_eq/=. split; [done|discriminate].
  - intros i t Hi. simpl in Hi. rewrite list_lookup_fmap in Hi.
    destruct (work !! i); simplify_eq/=. done.
  - by rewrite start_pushed.
  - by rewrite start_remaining.
Qed.

(** *** What the invariant gives the callers *)

Lemma ids_of_fmap (h : gmap addr Widget) (l : list addr) :
  (∀ a, a ∈ l → is_Some (h !! a)) →
  ids_of h l = Some ((λ a, default 0 (id <$> h !! a)) <$> l).
Proof.
  unfold ids_of. induction l as [|a l IH]; intros Hlive; [done|].
  destruct (Hlive a) as [obj Hobj]; [by left|].
  simpl. rewrite Hobj. simpl. rewrite IH; [done|].
  intros b Hb. apply Hlive. by right.
Qed.

Lemma ids_of_submseteq (h : gmap addr Widget) (l l' : list addr) k :
  ids_of h l = Some k → l' ⊆+ l →
  ∃ k', ids_of h l' = Some k' ∧ k' ⊆+ k ∧ length k' = length l'.
Proof.
  intros Hk Hsub.
  assert (∀ a, a ∈ l → is_Some (h !! a)) as Hlive
    by (intros a; by apply ids_of_live with k).
  rewrite ids_of_fmap in Hk by done. injection Hk as <-.
  eexists. split_and!.
  - apply ids_of_fmap. intros a Ha. apply Hlive. by eapply elem_of_submseteq.
  - by apply fmap_submseteq.
  - by rewrite length_fmap.
Qed.

Lemma ids_of_Permutation (h : gmap addr Widget) (l l' : list addr) k :
  ids_of h l = Some k → l' ≡ₚ l →
  ∃ k', ids_of h l' = Some k' ∧ k' ≡ₚ k.
Proof.
  intros Hk Hperm.
  assert (∀ a, a ∈ l → is_Some (h !! a)) as Hlive
    by (intros a; by apply ids_of_live with k).
  rewrite ids_of_fmap in Hk by done. injection Hk as <-.
  eexists. split.
  - apply ids_of_fmap. intros a Ha. apply Hlive. by rewrite <- Hperm.
  - by apply fmap_Permutation.
Qed.

Lemma got_submseteq_pushed (l : list Thread) : l ≫= got ⊆+ l ≫= pushed.
Proof.
  induction l as [|t l IH]; [done|].
  rewrite !bind_cons. apply submseteq_app; [|done].
  unfold pushed. by apply submseteq_inserts_r.
Qed.

Lemma submseteq_NoDup {A} (l k : list A) : l ⊆+ k → NoDup k → NoDup l.
Proof.
  intros Hsub Hnd. apply submseteq_Permutation in Hsub as [k' Hk'].
  rewrite Hk' in Hnd. by apply NoDup_app in Hnd as [? _].
Qed.

Lemma done_threads (l : list Thread) :
  forallb thread_done l = true →
  l ≫= pushed = l ≫= got ∧ sum_list_with remaining l = 0%nat.
Proof.
  induction l as [|t l IH]; [done|]. intros Hd. simpl in Hd.
  apply andb_prop in Hd as [Ht Hl]. destruct (IH Hl) as [IH1 IH2].
  rewrite !bind_cons, IH1. cbn [sum_list_with]. rewrite IH2.
  unfold thread_done in Ht. unfold pushed, remaining.
  destruct (pc t), (todo t); try done. by rewrite app_nil_r.
Qed.

(** *** Progress: no deadlock, every run can be completed *)

Lemma steps_left_insert (l : list Thread) i t t' :
  l !! i = Some t → (steps_left t' < steps_left t)%nat →
  (sum_list_with steps_left (<[i:=t']> l) < sum_list_with steps_left l)%nat.
Proof.
  intros Hi Hlt. destruct (insert_split l i t t' Hi) as (l1 & l2 & -> & ->).
  rewrite !sum_list_with_app. simpl. lia.
Qed.

Lemma unfinished_thread (l : list Thread) :
  forallb thread_done l = false →
  ∃ j t, l !! j = Some t ∧ thread_done t = false.
Proof.
  induction l as [|t l IH]; [done|]. intros Hd. simpl in Hd.
  apply andb_false_iff in Hd as [Ht|Hl].
  - by exists 0%nat, t.
  - destruct (IH Hl) as (j & tj & Hj & Hdone). by exists (S j), tj.
Qed.

(** Unless every thread is done, some thread can take a step, and the step
    brings the configuration closer to completion. *)
Lemma progress N c :
  alloc_inv N c → finished c = false →
  ∃ i, (measure (step c i) < measure c)%nat.
Proof.
  intros Hinv Hfin. destruct (g_mu c) as [i|] eqn:Hmu.
  - destruct (ci_owner _ _ Hinv i Hmu) as [t Hi].
    pose proof (ci_pc _ _ Hinv i t Hi) as Hpc.
    assert (pc t ≠ Idle) as Hbusy by (by apply (ci_lock _ _ Hinv i t Hi)).
    exists i. unfold step, measure. rewrite Hi. unfold thread_step.
    destruct t as [p td g].
    destruct p as [|k|k w|w|w tmp|w tmp|w|w]; simpl in *; try done;
      try (destruct Hpc as (_ & [obj ->] & _));
      try (destruct Hpc as (_ & _ & [obj ->] & _));
      simpl; (eapply steps_left_insert; [exact Hi|]);
      unfold steps_left; simpl; lia.
  - destruct (unfinished_thread _ Hfin) as (j & t & Hj & Hdone).
    assert (pc t = Idle) as Hidle.
    { pose proof (ci_lock _ _ Hinv j t Hj) as Hlock. rewrite Hmu in Hlock.
      destruct (pc t); try done; by destruct Hlock as [Hl _]; discriminate Hl. }
    exists j. unfold step, measure. rewrite Hj, Hmu. unfold thread_step.
    unfold thread_done in Hdone. rewrite Hidle in *.
    destruct (todo t) as [|k ks] eqn:Htodo; [done|]. simpl.
    eapply steps_left_insert; [exact Hj|].
    unfold steps_left. rewrite Htodo, Hidle. simpl. lia.
Qed.

Lemma can_finish N (m : nat) : ∀ c,
  alloc_inv N c → (measure c <= m)%nat →
  ∃ sched, finished (run sched c) = true.
Proof.
  induction m as [|m IH]; intros c Hinv Hm.
  - destruct (finished c) eqn:Hfin; [by exists []|].
    destruct (progress N c Hinv Hfin) as [i Hi]. lia.
  - destruct (finished c) eqn:Hfin; [by exists []|].
    destruct (progress N c Hinv Hfin) as [i Hi].
    destruct (IH (step c i)) as [sched Hs]; [by apply alloc_inv_step|lia|].
    by exists (i :: sched).
Qed.

(** C9: threads that call [make_widget] concurrently, [N] calls in all with
    [N] below [INT_MAX], under any interleaving of their steps: no step
    faults; the ids of the widgets returned so far are pairwise distinct and
    lie in 1..N, one per returned pointer; the registry holds distinct
    pointers whose widgets carry 1, 2, ... in registry order; once every
    thread is done the ids handed out are exactly 1..N (a permutation of
    it) and the registry holds exactly the [N] returned pointers.  Every
    interleaving can be continued to such an end: the threads never
    deadlock. *)
Theorem concurrent_ids_unique (work : list (list Kind)) (sched : list nat) :
  Z.of_nat (total_work work) < INT_MAX →
  let N := total_work work in
  let c := run sched (start work) in
  crashed c = false
  ∧ (∃ ids, issued c = Some ids ∧ NoDup ids
       ∧ length ids = length (handles c)
       ∧ ∀ x, x ∈ ids → 1 <= x <= Z.of_nat N)
  ∧ NoDup (registry (shared c))
  ∧ registry_ids (shared c)
    = Some (seqZ 1 (Z.of_nat (length (registry (shared c)))))
  ∧ (finished c = true →
       length (registry (shared c)) = N
       ∧ handles c ≡ₚ registry (shared c)
       ∧ ∃ ids, issued c = Some ids ∧ ids ≡ₚ seqZ 1 (Z.of_nat N))
  ∧ ∃ more, finished (run (sched ++ more) (start work)) = true.
Proof.
  intros Hb N c.
  assert (alloc_inv N c) as Hinv by (by apply alloc_inv_run, alloc_inv_start).
  pose proof (ci_count _ _ Hinv) as Hcount.
  assert (handles c ⊆+ registry (shared c)) as Hsub.
  { rewrite <- (ci_pushed _ _ Hinv). apply got_submseteq_pushed. }
  split_and!.
  - apply Hinv.
  - destruct (ids_of_submseteq _ _ _ _ (ci_ids _ _ Hinv) Hsub)
      as (ids & Hids & Hsubids & Hlen).
    exists ids. split_and!; [done| |done|].
    + eapply submseteq_NoDup; [exact Hsubids|apply NoDup_seqZ].
    + intros x Hx. eapply elem_of_submseteq in Hx; [|exact Hsubids].
      apply elem_of_seqZ in Hx. lia.
  - apply Hinv.
  - apply Hinv.
  - intros Hfin. destruct (done_threads _ Hfin) as [Hpush Hrem].
    assert (length (registry (shared c)) = N) as HN by lia.
    assert (handles c ≡ₚ registry (shared c)) as Hperm.
    { unfold handles. rewrite <- Hpush. apply Hinv. }
    split_and!; [done|done|].
    destruct (ids_of_Permutation _ _ _ _ (ci_ids _ _ Hinv) Hperm)
      as (ids & Hids & Hp).
    exists ids. split; [done|]. by rewrite Hp, HN.
  - destruct (can_finish N (measure c) c Hinv) as [more Hmore]; [done|].
    exists more. by rewrite run_app.
Qed.

(** Two threads, the second one kept waiting on the mutex at first. *)
Lemma concurrent_ids_unique_witness :
  let c := run [0; 1; 0; 1; 0; 0; 0; 1; 0; 0; 0; 1; 1; 1; 1]%nat
               (start [[Window; Button]; [Button]]) in
  crashed c = false
  ∧ ∃ ids, issued c = Some ids ∧ NoDup ids.
Proof.
  assert (Z.of_nat (total_work [[Window; Button]; [Button]]) < INT_MAX) as Hb
    by (vm_compute; reflexivity).
  destruct (concurrent_ids_unique [[Window; Button]; [Button]]
              [0; 1; 0; 1; 0; 0; 0; 1; 0; 0; 0; 1; 1; 1; 1]%nat Hb)
    as (Hsafe & (ids & Hids & Hnd & _) & _).
  split; [exact Hsafe|]. exists ids. split; assumption.
Defined.

(** *** The step machine against the sequential function *)

Lemma step_next c i t mu st t' :
  threads c !! i = Some t →
  thread_step i (g_mu c) (shared c) t = Next mu st t' →
  step c i = {| shared := st; g_mu := mu; threads := <[i:=t']> (threads c);
                crashed := crashed c |}.
Proof. intros Hi Hs. unfold step. by rewrite Hi, Hs. Qed.

(** A thread that finds the mutex free and is scheduled eight times in a
    row performs exactly one sequential [make_widget]. *)
Lemma solo_call_is_make_widget c i k ks g :
  threads c !! i = Some {| pc := Idle; todo := k :: ks; got := g |} →
  g_mu c = None →
  run (replicate 8 i) c
  = {| shared := (make_widget k (shared c)).1;
       g_mu := None;
       threads := <[i := {| pc := Idle; todo := ks;
                            got := g ++ [(make_widget k (shared c)).2] |}]> (threads c);
       crashed := crashed c |}.
Proof.
  intros Hi Hmu.
  assert (i < length (threads c))%nat as Hlen by (by eapply lookup_lt_Some).
  cbn [replicate run foldl].
  erewrite (step_next c i); [|exact Hi|by rewrite Hmu].
  do 7 (match goal with
        | |- context [step ?c0 i] =>
            lazymatch c0 with
            | context [step] => fail
            | _ =>
                erewrite (step_next c0 i);
                [|simpl; apply list_lookup_insert_eq; by rewrite ?length_insert
                 |simpl; unfold thread_step; simpl; rewrite ?lookup_insert_eq;
                  reflexivity]
            end
        end;
        simpl; rewrite ?list_insert_insert_eq, ?insert_insert_eq).
  unfold make_widget. simpl. destruct (shared c). reflexivity.
Qed.

(** * Further properties of the stub *)

(** ** Diagnostics *)

Lemma stderr_trace ln st :
  stderr (trace ln st) = stderr st ++ (if g_verbose st then [ln] else []).
Proof. unfold trace. destruct (g_verbose st); simpl; by rewrite ?app_nil_r. Qed.

Lemma dump_widget_eq w prefix st obj pid :
  heap st !! w = Some obj →
  match parent obj with
  | None => Some 0
  | Some p => id <$> heap st !! p
  end = Some pid →
  dump_widget w prefix st
  = Some (trace (Dump prefix (id obj) (kind_name (kind obj)) (title obj)
                      (label obj) (width obj) (height obj) pid) st).
Proof. intros Hw Hp. unfold dump_widget. rewrite Hw. simpl. by rewrite Hp. Qed.

Lemma qt_window_new_closed title w h st :
  qt_window_new title w h st
  = Some (trace (Dump "window_new" (next_id st) "Window" (default "" title) ""
                      (if 0 <? w then w else 800) (if 0 <? h then h else 600) 0)
            {| g_running := g_running st; g_verbose := g_verbose st;
               next_id := wrap_int (next_id st + 1);
               registry := registry st ++ [new_addr (heap st)];
               heap := <[new_addr (heap st) :=
                          {| kind := Window; title := default "" title; label := "";
                             width := if 0 <? w then w else 800;
                             height := if 0 <? h then h else 600;
                             parent := None; id := next_id st |}]> (heap st);
               stderr := stderr st |},
          Some (new_addr (heap st))).
Proof.
  unfold qt_window_new, make_widget. simpl.
  rewrite lookup_insert_eq. simpl. rewrite insert_insert_eq.
  unfold dump_widget. simpl. rewrite lookup_insert_eq. reflexivity.
Qed.

Lemma qt_button_new_closed label st :
  qt_button_new label st
  = Some (trace (Dump "button_new" (next_id st) "Button" "" (default "Button" label)
                      0 0 0)
            {| g_running := g_running st; g_verbose := g_verbose st;
               next_id := wrap_int (next_id st + 1);
               registry := registry st ++ [new_addr (heap st)];
               heap := <[new_addr (heap st) :=
                          {| kind := Button; title := "";
                             label := default "Button" label;
                             width := 0; height := 0;
                             parent := None; id := next_id st |}]> (heap st);
               stderr := stderr st |},
          Some (new_addr (heap st))).
Proof.
  unfold qt_button_new, make_widget. simpl.
  rewrite lookup_insert_eq. simpl. rewrite insert_insert_eq.
  unfold dump_widget. simpl. rewrite lookup_insert_eq. reflexivity.
Qed.

Lemma same_but_log_trace ln1 ln2 s1 s2 :
  same_but_log s1 s2 → same_but_log (trace ln1 s1) (trace ln2 s2).
Proof.
  unfold same_but_log, same_widgets. by autorewrite with qtstub.
Qed.

Lemma dump_widget_same_but_log w p1 p2 s1 s2 :
  same_but_log s1 s2 →
  option_Forall2 same_but_log (dump_widget w p1 s1) (dump_widget w p2 s2).
Proof.
  intros Hs. pose proof Hs as (_ & _ & _ & Hh).
  unfold dump_widget. rewrite <- Hh.
  destruct (heap s1 !! w) as [obj|]; simpl; [|constructor].
  destruct (match parent obj with None => Some 0 | Some p => id <$> heap s1 !! p end);
    simpl; constructor. by apply same_but_log_trace.
Qed.

Lemma same_but_log_write s1 s2 w obj :
  same_but_log s1 s2 →
  same_but_log (with_heap (<[w := obj]> (heap s1)) s1)
               (with_heap (<[w := obj]> (heap s2)) s2).
Proof.
  unfold same_but_log, same_widgets. simpl. intros (-> & -> & -> & ->). done.
Qed.

(** X1: the diagnostics never feed back.  Two states that agree on the run
    flag and on the widget graph (they may differ in verbosity and in what
    stderr holds) answer every call alike: both calls have undefined
    behaviour, or both return and the resulting states agree again. *)
Theorem api_run_ignores_log (call : api_call) (s1 s2 : State) :
  same_but_log s1 s2 →
  option_Forall2 same_but_log (api_run call s1) (api_run call s2).
Proof.
  intros Hs. pose proof Hs as (Hr & Hn & Hreg & Hh).
  destruct call as [on|env|t w h|l|c p|w|w t|]; simpl.
  - constructor. done.
  - constructor. unfold qt_init. apply same_but_log_trace.
    destruct env; done.
  - rewrite !qt_window_new_closed. simpl. constructor.
    apply same_but_log_trace.
    unfold same_but_log, same_widgets. simpl. by rewrite Hr, Hn, Hreg, Hh.
  - rewrite !qt_button_new_closed. simpl. constructor.
    apply same_but_log_trace.
    unfold same_but_log, same_widgets. simpl. by rewrite Hr, Hn, Hreg, Hh.
  - unfold qt_widget_set_parent. destruct c as [c|]; [|by constructor].
    rewrite <- Hh. destruct (heap s1 !! c) as [obj|]; simpl; [|constructor].
    apply dump_widget_same_but_log.
    unfold same_but_log, same_widgets. simpl. by rewrite Hr, Hn, Hreg.
  - unfold qt_widget_show. destruct w as [w|].
    + by apply dump_widget_same_but_log.
    + constructor. by apply same_but_log_trace.
  - unfold qt_widget_set_title. destruct w as [w|]; [|by constructor].
    rewrite <- Hh. destruct (heap s1 !! w) as [obj|]; simpl; [|constructor].
    apply dump_widget_same_but_log.
    unfold same_but_log, same_widgets. simpl. by rewrite Hr, Hn, Hreg.
  - constructor. unfold qt_main_quit, same_but_log, same_widgets. simpl.
    by autorewrite with qtstub.
Qed.

(** The first call of a session answers the same whether tracing is on or
    off. *)
Lemma api_run_ignores_log_witness :
  option_Forall2 same_but_log
    (api_run (CallWindowNew None 0 0) init_state)
    (api_run (CallWindowNew None 0 0) (with_verbose false init_state)).
Proof.
  apply api_run_ignores_log. unfold same_but_log, same_widgets. simpl. done.
Defined.

(** What a call does to stderr and to the verbosity, in one equation each. *)
Lemma api_run_log (call : api_call) (st st' : State) :
  api_run call st = Some st' →
  (∃ ln, stderr st' = stderr st ++ (if g_verbose st' && emits call then [ln] else []))
  ∧ g_verbose st' = match call with
                    | CallSetVerbose on => negb (on =? 0)
                    | CallInit (Some v) => negb (String.eqb v "0")
                    | _ => g_verbose st
                    end.
Proof.
  intros Hrun. destruct call as [on|env|t w h|l|c p|w|w t|]; simpl in Hrun.
  - injection Hrun as <-. simpl. split; [|done].
    exists (Msg ""). by rewrite andb_false_r, app_nil_r.
  - injection Hrun as <-. unfold qt_init.
    rewrite stderr_trace, g_verbose_trace. destruct env as [v|]; simpl.
    + split; [|done]. eexists. by destruct (negb (String.eqb v "0")).
    + split; [|done]. eexists. by rewrite andb_true_r.
  - rewrite qt_window_new_closed in Hrun. injection Hrun as <-.
    rewrite stderr_trace, g_verbose_trace. simpl. split; [|done].
    eexists. by rewrite andb_true_r.
  - rewrite qt_button_new_closed in Hrun. injection Hrun as <-.
    rewrite stderr_trace, g_verbose_trace. simpl. split; [|done].
    eexists. by rewrite andb_true_r.
  - unfold qt_widget_set_parent in Hrun. destruct c as [c|].
    + destruct (heap st !! c) as [obj|]; [|done]. simpl in Hrun.
      apply dump_widget_inv in Hrun as [ln ->].
      rewrite stderr_trace, g_verbose_trace. simpl. split; [|done].
      eexists. by rewrite andb_true_r.
    + injection Hrun as <-. split; [|done].
      exists (Msg ""). by rewrite andb_false_r, app_nil_r.
  - unfold qt_widget_show in Hrun. destruct w as [w|].
    + apply dump_widget_inv in Hrun as [ln ->].
      rewrite stderr_trace, g_verbose_trace. simpl. split; [|done].
      eexists. by rewrite andb_true_r.
    + injection Hrun as <-.
      rewrite stderr_trace, g_verbose_trace. simpl. split; [|done].
      eexists. by rewrite andb_true_r.
  - unfold qt_widget_set_title in Hrun. destruct w as [w|].
    + destruct (heap st !! w) as [obj|]; [|done]. simpl in Hrun.
      apply dump_widget_inv in Hrun as [ln ->].
      rewrite stderr_trace, g_verbose_trace. simpl. split; [|done].
      eexists. by rewrite andb_true_r.
    + injection Hrun as <-. split; [|done].
      exists (Msg ""). by rewrite andb_false_r, app_nil_r.
  - injection Hrun as <-. unfold qt_main_quit. simpl.
    rewrite stderr_trace, g_verbose_trace. split; [|done].
    eexists. by rewrite andb_true_r.
Qed.

(** X2: what a call does to stderr and to the verbosity.  A call that
    returns leaves what was on stderr in place and appends at most one
    line: one exactly when tracing is on once the call has settled the
    verbosity and the call reaches a [trace] ([emits]), none otherwise.
    The verbosity afterwards is the one [qt_set_verbose] was given, or the
    one the environment variable gives [qt_init] ("0" is off, anything else
    on), or the one before the call. *)
Theorem log_discipline (call : api_call) (st st' : State) :
  api_run call st = Some st' →
  (∃ lines, stderr st' = stderr st ++ lines
            ∧ (length lines <= 1)%nat
            ∧ (length lines = 1%nat ↔ g_verbose st' = true ∧ emits call = true))
  ∧ g_verbose st' = match call with
                    | CallSetVerbose on => negb (on =? 0)
                    | CallInit (Some v) => negb (String.eqb v "0")
                    | _ => g_verbose st
                    end.
Proof.
  intros Hrun. destruct (api_run_log call st st' Hrun) as [[ln Hlog] Hv].
  split; [|exact Hv].
  exists (if g_verbose st' && emits call then [ln] else []).
  split; [exact Hlog|].
  destruct (g_verbose st'), (emits call); simpl; (split; [lia|]);
    (split; [intros Hlen|intros [Hv' He]]); done.
Qed.

(** [qt_init] with the variable set to "0", in a verbose state: silent. *)
Lemma log_discipline_witness :
  stderr (qt_init (Some "0") init_state) = [] ∧ g_verbose (qt_init (Some "0") init_state) = false.
Proof.
  destruct (log_discipline (CallInit (Some "0")) init_state
              (qt_init (Some "0") init_state) eq_refl)
    as [(lines & Hlog & Hle & Hone) Hv].
  split; [|exact Hv]. rewrite Hlog. destruct lines as [|l lines]; [done|].
  destruct lines; [|simpl in Hle; lia].
  destruct (proj1 Hone eq_refl) as [Hverb _]. rewrite Hv in Hverb. done.
Defined.

(** X3: a quiet session stays quiet.  Starting with tracing off, a sequence
    of calls none of which is [qt_set_verbose] or a [qt_init] with the
    variable set leaves stderr exactly as it was, and tracing off. *)
Theorem quiet_run (calls : list api_call) : ∀ st st',
  g_verbose st = false →
  forallb (λ c, negb (sets_verbosity c)) calls = true →
  api_runs calls st = Some st' →
  stderr st' = stderr st ∧ g_verbose st' = false.
Proof.
  induction calls as [|call calls IH]; intros st st' Hq Hall Hrun; simpl in *.
  - by injection Hrun as <-.
  - apply andb_prop in Hall as [Hc Hall].
    destruct (api_run call st) as [s1|] eqn:H1; [|done]. simpl in Hrun.
    destruct (api_run_log call st s1 H1) as [[ln Hlog] Hv].
    assert (g_verbose s1 = false) as Hq1.
    { rewrite Hv. destruct call as [| [?|] | | | | | |]; try done. }
    rewrite Hq1 in Hlog. simpl in Hlog. rewrite app_nil_r in Hlog.
    destruct (IH s1 st' Hq1 Hall Hrun) as [Hs Hv']. by rewrite Hs, Hlog.
Qed.

(** Tracing switched off, then a window, a button and a quit. *)
Lemma quiet_run_witness :
  stderr (default init_state
            (api_runs [CallWindowNew None 0 0; CallButtonNew None; CallMainQuit]
                      (qt_set_verbose 0 init_state))) = [].
Proof.
  set (calls := [CallWindowNew None 0 0; CallButtonNew None; CallMainQuit]).
  set (st := qt_set_verbose 0 init_state).
  assert (api_runs calls st = Some (default init_state (api_runs calls st))) as Hrun
    by (vm_compute; reflexivity).
  exact (proj1 (quiet_run calls st _ eq_refl eq_refl Hrun)).
Defined.

(** ** What a call does to the widgets that exist *)

Lemma ctor_keeps_old (h : gmap addr Widget) a obj new :
  h !! a = Some obj → <[new_addr h := new]> h !! a = Some obj.
Proof.
  intros Ha. rewrite lookup_insert_ne; [done|].
  intros Heq. rewrite <- Heq, new_addr_fresh in Ha. done.
Qed.

(** The fields of an existing widget across one call. *)
Lemma api_run_fields (call : api_call) (st st' : State) (a : addr) (obj : Widget) :
  api_run call st = Some st' →
  heap st !! a = Some obj →
  ∃ obj', heap st' !! a = Some obj'
    ∧ kind obj' = kind obj ∧ id obj' = id obj
    ∧ width obj' = width obj ∧ height obj' = height obj
    ∧ label obj' = label obj
    ∧ title obj' = match call with
                   | CallSetTitle (Some w) t =>
                       if decide (w = a) then default "" t else title obj
                   | _ => title obj
                   end
    ∧ parent obj' = match call with
                    | CallSetParent (Some c) p =>
                        if decide (c = a) then p else parent obj
                    | _ => parent obj
                    end.
Proof.
  intros Hrun Ha. destruct call as [on|env|t w h|l|c p|w|w t|]; simpl in Hrun.
  - injection Hrun as <-. by exists obj.
  - injection Hrun as <-. exists obj. unfold qt_init.
    rewrite heap_trace. by destruct env.
  - rewrite qt_window_new_closed in Hrun. injection Hrun as <-.
    exists obj. rewrite heap_trace. simpl. by rewrite (ctor_keeps_old _ _ _ _ Ha).
  - rewrite qt_button_new_closed in Hrun. injection Hrun as <-.
    exists obj. rewrite heap_trace. simpl. by rewrite (ctor_keeps_old _ _ _ _ Ha).
  - unfold qt_widget_set_parent in Hrun.
    destruct c as [c|]; [|injection Hrun as <-; by exists obj].
    destruct (heap st !! c) as [objc|] eqn:Hc; [|done]. simpl in Hrun.
    apply dump_widget_inv in Hrun as [ln ->]. rewrite heap_trace. simpl.
    case_decide as Hca.
    + subst c. rewrite lookup_insert_eq. rewrite Ha in Hc. injection Hc as <-.
      by eexists.
    + rewrite lookup_insert_ne by done. by exists obj.
  - unfold qt_widget_show in Hrun. destruct w as [w|].
    + apply dump_widget_inv in Hrun as [ln ->]. rewrite heap_trace. by exists obj.
    + injection Hrun as <-. rewrite heap_trace. by exists obj.
  - unfold qt_widget_set_title in Hrun.
    destruct w as [w|]; [|injection Hrun as <-; by exists obj].
    destruct (heap st !! w) as [objw|] eqn:Hw; [|done]. simpl in Hrun.
    apply dump_widget_inv in Hrun as [ln ->]. rewrite heap_trace. simpl.
    case_decide as Hwa.
    + subst w. rewrite lookup_insert_eq. rewrite Ha in Hw. injection Hw as <-.
      by eexists.
    + rewrite lookup_insert_ne by done. by exists obj.
  - injection Hrun as <-. exists obj. unfold qt_main_quit. simpl.
    by rewrite heap_trace.
Qed.

(** X4: how a call changes a widget that exists.  Whatever the call, a
    live widget stays live and keeps its kind, id, width, height and label.
    Its title changes only under [qt_widget_set_title] on that very widget
    (to the text, or to the empty string for null text), its parent only
    under [qt_widget_set_parent] on that very widget (to the argument). *)
Theorem field_updates (call : api_call) (st st' : State) (a : addr) (obj : Widget) :
  api_run call st = Some st' →
  heap st !! a = Some obj →
  ∃ obj', heap st' !! a = Some obj'
    ∧ kind obj' = kind obj ∧ id obj' = id obj
    ∧ width obj' = width obj ∧ height obj' = height obj
    ∧ label obj' = label obj
    ∧ title obj' = match call with
                   | CallSetTitle (Some w) t =>
                       if decide (w = a) then default "" t else title obj
                   | _ => title obj
                   end
    ∧ parent obj' = match call with
                    | CallSetParent (Some c) p =>
                        if decide (c = a) then p else parent obj
                    | _ => parent obj
                    end.
Proof.
  intros Hrun Ha.
  destruct (api_run_fields call st st' a obj Hrun Ha)
    as (obj' & Hobj & Hk & Hi & Hwd & Hh & Hl & Ht & Hp).
  exists obj'. split; [exact Hobj|]. split_and!; assumption.
Qed.

(** Retitling the window "App" leaves a button created after it alone. *)
Lemma field_updates_witness :
  ∃ st1 st2 obj',
    api_run (CallButtonNew (Some "OK")) one_window = Some st1
    ∧ api_run (CallSetTitle (Some 1%positive) (Some "Main")) st1 = Some st2
    ∧ heap st2 !! 2%positive = Some obj'
    ∧ label obj' = "OK" ∧ title obj' = "" ∧ parent obj' = None.
Proof.
  eexists _, _. 
  assert (api_run (CallButtonNew (Some "OK")) one_window
          = Some (default one_window (api_run (CallButtonNew (Some "OK")) one_window)))
    as H1 by (vm_compute; reflexivity).
  set (st1 := default one_window (api_run (CallButtonNew (Some "OK")) one_window)) in *.
  assert (api_run (CallSetTitle (Some 1%positive) (Some "Main")) st1
          = Some (default st1 (api_run (CallSetTitle (Some 1%positive) (Some "Main")) st1)))
    as H2 by (vm_compute; reflexivity).
  destruct (field_updates _ _ _ 2%positive
              {| kind := Button; title := ""; label := "OK"; width := 0;
                 height := 0; parent := None; id := 2 |} H2)
    as (obj' & Hobj & _ & _ & _ & _ & Hl & Ht & Hp).
  { vm_compute. reflexivity. }
  exists obj'. split_and!; [exact H1|exact H2|exact Hobj|exact Hl|exact Ht|exact Hp].
Defined.

(** ** Dangling pointers *)

Lemma dump_widget_parent_live w prefix st st' obj p :
  dump_widget w prefix st = Some st' →
  heap st !! w = Some obj → parent obj = Some p → is_Some (heap st !! p).
Proof.
  unfold dump_widget. intros Hd Hw Hp. rewrite Hw in Hd. simpl in Hd.
  rewrite Hp in Hd. destruct (heap st !! p); [eauto|done].
Qed.

Lemma live_insert (h : gmap addr Widget) c x p :
  is_Some (h !! p) → is_Some (<[c := x]> h !! p).
Proof.
  intros Hp. destruct (decide (c = p)) as [->|Hne].
  - rewrite lookup_insert_eq. eauto.
  - by rewrite lookup_insert_ne.
Qed.

Lemma live_insert_inv (h : gmap addr Widget) c x p :
  is_Some (h !! c) → is_Some (<[c := x]> h !! p) → is_Some (h !! p).
Proof.
  intros Hc Hp. destruct (decide (c = p)) as [<-|Hne]; [done|].
  by rewrite lookup_insert_ne in Hp.
Qed.

Lemma init_state_closed : heap_closed init_state.
Proof.
  intros a obj p Ha.
  change (heap init_state) with (∅ : gmap addr Widget) in Ha.
  by rewrite lookup_empty in Ha.
Qed.

(** A call that returns never leaves a dangling parent pointer behind. *)
Lemma api_run_closed call st st' :
  heap_closed st → api_run call st = Some st' → heap_closed st'.
Proof.
  intros Hcl Hrun. destruct call as [on|env|t w h|l|c p|w|w t|]; simpl in Hrun.
  - by injection Hrun as <-.
  - injection Hrun as <-. unfold heap_closed, qt_init. rewrite heap_trace.
    by destruct env.
  - rewrite qt_window_new_closed in Hrun. injection Hrun as <-.
    unfold heap_closed. rewrite heap_trace. simpl. intros a obj p Ha Hp.
    apply live_insert. destruct (decide (new_addr (heap st) = a)) as [<-|Hne].
    + rewrite lookup_insert_eq in Ha. injection Ha as <-. done.
    + rewrite lookup_insert_ne in Ha by done. by eapply Hcl.
  - rewrite qt_button_new_closed in Hrun. injection Hrun as <-.
    unfold heap_closed. rewrite heap_trace. simpl. intros a obj p Ha Hp.
    apply live_insert. destruct (decide (new_addr (heap st) = a)) as [<-|Hne].
    + rewrite lookup_insert_eq in Ha. injection Ha as <-. done.
    + rewrite lookup_insert_ne in Ha by done. by eapply Hcl.
  - unfold qt_widget_set_parent in Hrun.
    destruct c as [c|]; [|by injection Hrun as <-].
    destruct (heap st !! c) as [objc|] eqn:Hc; [|done]. simpl in Hrun.
    pose proof Hrun as Hd. apply dump_widget_inv in Hrun as [ln ->].
    unfold heap_closed. rewrite heap_trace. simpl. intros a obj q Ha Hq.
    destruct (decide (c = a)) as [<-|Hne].
    + rewrite lookup_insert_eq in Ha. injection Ha as <-.
      eapply (dump_widget_parent_live _ _ _ _ _ _ Hd); [|exact Hq].
      simpl. apply lookup_insert_eq.
    + rewrite lookup_insert_ne in Ha by done. apply live_insert. by eapply Hcl.
  - unfold qt_widget_show in Hrun. destruct w as [w|].
    + apply dump_widget_inv in Hrun as [ln ->].
      unfold heap_closed. by rewrite heap_trace.
    + injection Hrun as <-. unfold heap_closed. by rewrite heap_trace.
  - unfold qt_widget_set_title in Hrun.
    destruct w as [w|]; [|by injection Hrun as <-].
    destruct (heap st !! w) as [objw|] eqn:Hw; [|done]. simpl in Hrun.
    apply dump_widget_inv in Hrun as [ln ->].
    unfold heap_closed. rewrite heap_trace. simpl. intros a obj q Ha Hq.
    apply live_insert. destruct (decide (w = a)) as [<-|Hne].
    + rewrite lookup_insert_eq in Ha. injection Ha as <-. by eapply Hcl.
    + rewrite lookup_insert_ne in Ha by done. by eapply Hcl.
  - injection Hrun as <-. unfold heap_closed, qt_main_quit. simpl.
    by rewrite heap_trace.
Qed.

(** Closedness and liveness along a sequence of calls. *)
Lemma api_runs_closed (calls : list api_call) : ∀ st st',
  heap_closed st →
  api_runs calls st = Some st' →
  heap_closed st' ∧ ∀ a, is_Some (heap st !! a) → is_Some (heap st' !! a).
Proof.
  induction calls as [|call calls IH]; intros st st' Hcl Hrun; simpl in Hrun.
  - by injection Hrun as <-.
  - destruct (api_run call st) as [s1|] eqn:H1; [|done]. simpl in Hrun.
    destruct (IH s1 st' (api_run_closed _ _ _ Hcl H1) Hrun) as [Hcl' Hlive].
    split; [done|]. intros a [obj Ha]. apply Hlive.
    destruct (api_run_fields call st s1 a obj H1 Ha) as (obj' & -> & _). eauto.
Qed.

(** X5: in every state the host can reach from start-up, by any sequence of
    calls that all return, no widget holds a dangling parent pointer, and
    every widget that was live at some point of the sequence is live at the
    end (nothing is ever destroyed). *)
Theorem reachable_closed (calls : list api_call) (st st' : State) :
  heap_closed st →
  api_runs calls st = Some st' →
  heap_closed st' ∧ ∀ a, is_Some (heap st !! a) → is_Some (heap st' !! a).
Proof.
  intros Hcl Hrun.
  destruct (api_runs_closed calls st st' Hcl Hrun) as [Hcl' Hlive].
  split; [exact Hcl'|]. intros a Ha. by apply Hlive.
Qed.
(** A button parented under a window, then the window under the button. *)
Lemma reachable_closed_witness :
  heap_closed
    (default init_state
       (api_runs [CallWindowNew None 0 0; CallButtonNew None;
                  CallSetParent (Some 2%positive) (Some 1%positive);
                  CallSetParent (Some 1%positive) (Some 2%positive)]
                 init_state)).
Proof.
  set (calls := [CallWindowNew None 0 0; CallButtonNew None;
                 CallSetParent (Some 2%positive) (Some 1%positive);
                 CallSetParent (Some 1%positive) (Some 2%positive)]).
  assert (api_runs calls init_state
          = Some (default init_state (api_runs calls init_state))) as Hrun
    by (vm_compute; reflexivity).
  exact (proj1 (reachable_closed calls init_state _ init_state_closed Hrun)).
Defined.

(** X6: when no widget holds a dangling parent pointer, a call has defined
    behaviour exactly when the handles it dereferences are null or live:
    the constructors, [qt_init], [qt_set_verbose] and [qt_main_quit]
    always; [qt_widget_show] and [qt_widget_set_title] when the handle is;
    [qt_widget_set_parent] when the child is null, or the child is live
    and the parent null or live. *)
Theorem defined_iff_usable (call : api_call) (st : State) :
  heap_closed st →
  is_Some (api_run call st) ↔ call_ok st call.
Proof.
  intros Hcl. destruct call as [on|env|t w h|l|c p|w|w t|]; simpl.
  - split; eauto.
  - split; eauto.
  - rewrite qt_window_new_closed. split; eauto.
  - rewrite qt_button_new_closed. split; eauto.
  - destruct c as [c|]; [|split; simpl; eauto]. split.
    + intros [st' Hrun]. unfold qt_widget_set_parent in Hrun.
      destruct (heap st !! c) as [objc|] eqn:Hc; [|done]. simpl in Hrun.
      split; [eauto|]. intros a ->.
      eapply (live_insert_inv _ c); [eauto|].
      eapply (dump_widget_parent_live _ _ _ _ _ _ Hrun); simpl;
        [apply lookup_insert_eq|done].
    + intros [[objc Hc] Hp].
      destruct (qt_widget_set_parent_eq st c objc p Hc Hp) as [ln ->]. eauto.
  - unfold usable. destruct w as [w|]; simpl.
    + split.
      * intros [st' Hrun] a [= <-]. unfold dump_widget in Hrun.
        destruct (heap st !! w); [eauto|done].
      * intros Hw. destruct (Hw w eq_refl) as [obj Hobj].
        destruct (dump_widget_ok w "widget_show" st obj Hobj) as [ln ->]; [|eauto].
        intros q Hq. by eapply Hcl.
    + split; [done|eauto].
  - unfold usable. destruct w as [w|]; simpl.
    + split.
      * intros [st' Hrun] a [= <-]. unfold qt_widget_set_title in Hrun.
        destruct (heap st !! w); [eauto|done].
      * intros Hw. destruct (Hw w eq_refl) as [obj Hobj].
        destruct (qt_widget_set_title_eq st w obj t Hobj) as [ln ->]; [|eauto].
        intros q Hq. by eapply Hcl.
    + split; [done|]. intros _. unfold qt_widget_set_title. eauto.
  - split; eauto.
Qed.

(** In the initial state nothing is live: showing address 1 is undefined,
    showing null is fine. *)
Lemma defined_iff_usable_witness :
  api_run (CallShow (Some 1%positive)) init_state = None
  ∧ is_Some (api_run (CallShow None) init_state).
Proof.
  split.
  - destruct (api_run (CallShow (Some 1%positive)) init_state) as [s|] eqn:E; [|done].
    assert (call_ok init_state (CallShow (Some 1%positive))) as Hok.
    { apply (defined_iff_usable _ _ init_state_closed). rewrite E. eauto. }
    destruct (Hok 1%positive eq_refl) as [obj Hobj].
    change (heap init_state) with (∅ : gmap addr Widget) in Hobj.
    by rewrite lookup_empty in Hobj.
  - apply (defined_iff_usable _ _ init_state_closed). by intros a [=].
Defined.

(** ** How the setters compose *)

Lemma same_but_log_sym s1 s2 : same_but_log s1 s2 → same_but_log s2 s1.
Proof. unfold same_but_log, same_widgets. intros (-> & -> & -> & ->). done. Qed.

Lemma same_but_log_trans s1 s2 s3 :
  same_but_log s1 s2 → same_but_log s2 s3 → same_but_log s1 s3.
Proof.
  unfold same_but_log, same_widgets.
  intros (-> & -> & -> & ->) (-> & -> & -> & ->). done.
Qed.

Lemma same_but_log_trace_l ln s : same_but_log (trace ln s) s.
Proof. unfold same_but_log, same_widgets. by autorewrite with qtstub. Qed.

(** The setters up to diagnostics: run in any state that agrees with [st]
    on the widget graph, they return a state that agrees with [st] after
    the one field has been written. *)
Lemma set_parent_graph s st c obj p :
  same_but_log s st → heap st !! c = Some obj → usable st p →
  ∃ s', qt_widget_set_parent (Some c) p s = Some s'
        ∧ same_but_log s' (with_heap (<[c := set_parent p obj]> (heap st)) st).
Proof.
  intros Hs Hc Hp. pose proof Hs as (_ & _ & _ & Hh).
  destruct (qt_widget_set_parent_eq s c obj p) as [ln ->].
  { by rewrite Hh. }
  { intros a Ha. rewrite Hh. by apply Hp. }
  eexists. split; [done|].
  eapply same_but_log_trans; [apply same_but_log_trace_l|].
  by apply same_but_log_write.
Qed.

Lemma set_title_graph s st w obj t :
  same_but_log s st → heap st !! w = Some obj → usable st (parent obj) →
  ∃ s', qt_widget_set_title (Some w) t s = Some s'
        ∧ same_but_log s' (with_heap (<[w := set_title (default "" t) obj]> (heap st)) st).
Proof.
  intros Hs Hw Hp. pose proof Hs as (_ & _ & _ & Hh).
  destruct (qt_widget_set_title_eq s w obj t) as [ln ->].
  { by rewrite Hh. }
  { intros a Ha. rewrite Hh. by apply Hp. }
  eexists. split; [done|].
  eapply same_but_log_trans; [apply same_but_log_trace_l|].
  by apply same_but_log_write.
Qed.

Lemma same_but_log_refl s : same_but_log s s.
Proof. by unfold same_but_log, same_widgets. Qed.

Lemma usable_insert st c x p :
  usable st p → usable (with_heap (<[c := x]> (heap st)) st) p.
Proof. intros Hp a Ha. simpl. apply live_insert. by apply Hp. Qed.

(** X7: the last parent wins.  Re-parenting a live child twice leaves the
    run flag and the widget graph exactly as the second call alone would;
    the first parent leaves no residue.  Only stderr tells the two
    histories apart. *)
Theorem set_parent_overwrites (st : State) (c : addr) (obj : Widget) (p1 p2 : ptr) :
  heap st !! c = Some obj → usable st p1 → usable st p2 →
  ∃ s1 s2 s2',
    qt_widget_set_parent (Some c) p1 st = Some s1
    ∧ qt_widget_set_parent (Some c) p2 s1 = Some s2
    ∧ qt_widget_set_parent (Some c) p2 st = Some s2'
    ∧ same_but_log s2 s2'.
Proof.
  intros Hc Hp1 Hp2.
  destruct (set_parent_graph st st c obj p1 (same_but_log_refl _) Hc Hp1)
    as (s1 & H1 & Hs1).
  destruct (set_parent_graph s1 _ c (set_parent p1 obj) p2 Hs1) as (s2 & H2 & Hs2).
  { simpl. apply lookup_insert_eq. }
  { by apply usable_insert. }
  destruct (set_parent_graph st st c obj p2 (same_but_log_refl _) Hc Hp2)
    as (s2' & H2' & Hs2').
  exists s1, s2, s2'. split_and!; try done.
  eapply same_but_log_trans; [exact Hs2|]. apply same_but_log_sym.
  simpl in *. rewrite insert_insert_eq. exact Hs2'.
Qed.

(** The window "App" parented to itself, then detached. *)
Lemma set_parent_overwrites_witness :
  ∃ s1 s2, qt_widget_set_parent (Some 1%positive) (Some 1%positive) one_window = Some s1
    ∧ qt_widget_set_parent (Some 1%positive) None s1 = Some s2
    ∧ heap s2 = heap one_window.
Proof.
  destruct (set_parent_overwrites one_window 1%positive
              {| kind := Window; title := "App"; label := ""; width := 640;
                 height := 480; parent := None; id := 1 |} (Some 1%positive) None)
    as (s1 & s2 & s2' & H1 & H2 & H2' & _ & _ & _ & Hh).
  - vm_compute. reflexivity.
  - intros a [= <-]. vm_compute. eauto.
  - intros a [=].
  - exists s1, s2. split_and!; [exact H1|exact H2|]. rewrite Hh.
    assert (qt_widget_set_parent (Some 1%positive) None one_window
            = Some (default one_window
                      (qt_widget_set_parent (Some 1%positive) None one_window)))
      as E by (vm_compute; reflexivity).
    pose proof (eq_trans (eq_sym H2') E) as E'. injection E' as ->.
    vm_compute. reflexivity.
Defined.

(** X8: title and parent are independent.  On live widgets [w] and [c] (the
    same one or not), with a usable parent argument and no dangling parent
    pointer in the heap, retitling [w] then re-parenting [c] and
    re-parenting [c] then retitling [w] both return, with the same run flag
    and the same widget graph. *)
Theorem set_title_set_parent_commute (st : State) (w c : addr) (ow oc : Widget)
    (t : cstr) (p : ptr) :
  heap_closed st →
  heap st !! w = Some ow → heap st !! c = Some oc → usable st p →
  ∃ s1 s2 s1' s2',
    qt_widget_set_title (Some w) t st = Some s1
    ∧ qt_widget_set_parent (Some c) p s1 = Some s2
    ∧ qt_widget_set_parent (Some c) p st = Some s1'
    ∧ qt_widget_set_title (Some w) t s1' = Some s2'
    ∧ same_but_log s2 s2'.
Proof.
  intros Hcl Hw Hc Hp.
  assert (usable st (parent ow)) as Hpw by (intros a Ha; exact (Hcl w ow a Hw Ha)).
  destruct (set_title_graph st st w ow t (same_but_log_refl _) Hw Hpw)
    as (s1 & H1 & Hs1).
  destruct (set_parent_graph st st c oc p (same_but_log_refl _) Hc Hp)
    as (s1' & H1' & Hs1').
  destruct (decide (w = c)) as [->|Hne].
  - rewrite Hw in Hc. injection Hc as <-.
    destruct (set_parent_graph s1 _ c (set_title (default "" t) ow) p Hs1)
      as (s2 & H2 & Hs2).
    { simpl. apply lookup_insert_eq. }
    { by apply usable_insert. }
    destruct (set_title_graph s1' _ c (set_parent p ow) t Hs1') as (s2' & H2' & Hs2').
    { simpl. apply lookup_insert_eq. }
    { simpl. by apply usable_insert. }
    exists s1, s2, s1', s2'. split_and!; try done.
    eapply same_but_log_trans; [exact Hs2|]. apply same_but_log_sym.
    simpl in *. rewrite insert_insert_eq in *. exact Hs2'.
  - destruct (set_parent_graph s1 _ c oc p Hs1) as (s2 & H2 & Hs2).
    { simpl. by rewrite lookup_insert_ne. }
    { by apply usable_insert. }
    destruct (set_title_graph s1' _ w ow t Hs1') as (s2' & H2' & Hs2').
    { simpl. by rewrite lookup_insert_ne. }
    { by apply usable_insert. }
    exists s1, s2, s1', s2'. split_and!; try done.
    eapply same_but_log_trans; [exact Hs2|]. apply same_but_log_sym.
    simpl in *. rewrite insert_insert_ne by done. exact Hs2'.
Qed.

Lemma window_and_button_closed : heap_closed window_and_button.
Proof.
  assert (api_runs [CallWindowNew (Some "App") 640 480; CallButtonNew (Some "OK")]
                   init_state = Some window_and_button) as Hrun
    by (vm_compute; reflexivity).
  exact (proj1 (api_runs_closed _ init_state _ init_state_closed Hrun)).
Qed.

Lemma window_and_button_heap :
  heap window_and_button !! 1%positive
  = Some {| kind := Window; title := "App"; label := ""; width := 640;
            height := 480; parent := None; id := 1 |}
  ∧ heap window_and_button !! 2%positive
    = Some {| kind := Button; title := ""; label := "OK"; width := 0;
              height := 0; parent := None; id := 2 |}.
Proof. split; vm_compute; reflexivity. Qed.

(** The button retitled and put under the window, in either order. *)
Lemma set_title_set_parent_commute_witness :
  ∃ s1 s2 s1' s2',
    qt_widget_set_title (Some 2%positive) (Some "Confirm") window_and_button = Some s1
    ∧ qt_widget_set_parent (Some 2%positive) (Some 1%positive) s1 = Some s2
    ∧ qt_widget_set_parent (Some 2%positive) (Some 1%positive) window_and_button = Some s1'
    ∧ qt_widget_set_title (Some 2%positive) (Some "Confirm") s1' = Some s2'
    ∧ same_but_log s2 s2'.
Proof.
  destruct window_and_button_heap as [HW HB].
  eapply (set_title_set_parent_commute window_and_button);
    [apply window_and_button_closed|exact HB|exact HB|].
  intros a [= <-]. eexists. exact HW.
Defined.

(** X9: no cycle is refused.  For live widgets [a] and [b] (possibly the
    same), parenting [a] under [b] and then [b] under [a] both return; the
    two parent pointers then point at each other, and each of the two can
    still be shown: nothing ever walks the parent chain further than one
    link. *)
Theorem parent_cycle_accepted (st : State) (a b : addr) (oa ob : Widget) :
  heap st !! a = Some oa → heap st !! b = Some ob →
  ∃ s1 s2 oa' ob',
    qt_widget_set_parent (Some a) (Some b) st = Some s1
    ∧ qt_widget_set_parent (Some b) (Some a) s1 = Some s2
    ∧ heap s2 !! a = Some oa' ∧ parent oa' = Some b
    ∧ heap s2 !! b = Some ob' ∧ parent ob' = Some a
    ∧ is_Some (qt_widget_show (Some a) s2)
    ∧ is_Some (qt_widget_show (Some b) s2).
Proof.
  intros Ha Hb.
  destruct (set_parent_graph st st a oa (Some b) (same_but_log_refl _) Ha)
    as (s1 & H1 & Hs1).
  { intros x [= <-]. eauto. }
  assert (∃ ob1, heap (with_heap (<[a:=set_parent (Some b) oa]> (heap st)) st) !! b
                 = Some ob1) as [ob1 Hb1].
  { apply live_insert. eauto. }
  destruct (set_parent_graph s1 _ b ob1 (Some a) Hs1 Hb1) as (s2 & H2 & Hs2).
  { intros x [= <-]. simpl. rewrite lookup_insert_eq. eauto. }
  destruct Hs2 as (_ & _ & _ & Hh). simpl in Hh, Hb1.
  assert (heap s2 !! b = Some (set_parent (Some a) ob1)) as Hb2
    by (by rewrite Hh, lookup_insert_eq).
  assert (∃ oa', heap s2 !! a = Some oa' ∧ parent oa' = Some b)
    as (oa' & Ha2 & Hpa).
  { rewrite Hh. destruct (decide (a = b)) as [<-|Hab].
    - rewrite lookup_insert_eq. eauto.
    - rewrite lookup_insert_ne, lookup_insert_eq by done. eauto. }
  exists s1, s2, oa', (set_parent (Some a) ob1).
  split_and!; try done.
  - unfold qt_widget_show.
    destruct (dump_widget_ok a "widget_show" s2 oa' Ha2) as [ln ->]; [|eauto].
    intros q Hq. rewrite Hpa in Hq. injection Hq as <-. eauto.
  - unfold qt_widget_show.
    destruct (dump_widget_ok b "widget_show" s2 _ Hb2) as [ln ->]; [|eauto].
    intros q [= <-]. eauto.
Qed.

(** The window under the button and the button under the window. *)
Lemma parent_cycle_accepted_witness :
  ∃ s1 s2,
    qt_widget_set_parent (Some 1%positive) (Some 2%positive) window_and_button = Some s1
    ∧ qt_widget_set_parent (Some 2%positive) (Some 1%positive) s1 = Some s2
    ∧ is_Some (qt_widget_show (Some 1%positive) s2).
Proof.
  destruct window_and_button_heap as [HW HB].
  destruct (parent_cycle_accepted window_and_button 1%positive 2%positive _ _ HW HB)
    as (s1 & s2 & _ & _ & H1 & H2 & _ & _ & _ & _ & Hshow & _).
  exists s1, s2. split_and!; assumption.
Defined.

(** ** The registry across arbitrary call sequences *)

Lemma wrap_int_succ z : wrap_int (wrap_int z + 1) = wrap_int (z + 1).
Proof.
  unfold wrap_int. f_equal.
  replace ((z + 2147483648) mod 4294967296 - 2147483648 + 1 + 2147483648)
    with ((z + 2147483648) mod 4294967296 + 1) by lia.
  rewrite Zplus_mod_idemp_l. f_equal. lia.
Qed.

Lemma ids_of_wrapped (h : gmap addr Widget) (l : list addr) :
  ids_of h l = Some (wrapped_ids (length l))
  ↔ ∀ (j : nat) a, l !! j = Some a →
      ∃ obj, h !! a = Some obj ∧ id obj = wrap_int (1 + Z.of_nat j).
Proof.
  unfold ids_of, wrapped_ids. rewrite mapM_Some. split.
  - intros HF j a Hj.
    destruct (Forall2_lookup_l _ _ _ _ _ HF Hj) as (y & Hy & Hid).
    rewrite list_lookup_fmap in Hy.
    destruct (seq 0 (length l) !! j) as [j'|] eqn:Hs; [|done].
    apply lookup_seq in Hs as [-> _]. simpl in Hy. injection Hy as <-.
    apply fmap_Some in Hid as (obj & Hobj & ->). eauto.
  - intros H. apply Forall2_same_length_lookup_2.
    + by rewrite length_fmap, length_seq.
    + intros j a y Hj Hy. rewrite list_lookup_fmap in Hy.
      destruct (seq 0 (length l) !! j) as [j'|] eqn:Hs; [|done].
      apply lookup_seq in Hs as [-> _]. simpl in Hy. injection Hy as <-.
      destruct (H j a Hj) as (obj & -> & <-). done.
Qed.

(** Registry, counter and live addresses across one call. *)
Lemma api_run_registry (call : api_call) (st st' : State) :
  api_run call st = Some st' →
  if is_ctor call then
    heap st !! new_addr (heap st) = None
    ∧ registry st' = registry st ++ [new_addr (heap st)]
    ∧ dom (heap st') = dom (heap st) ∪ {[new_addr (heap st)]}
    ∧ (id <$> heap st' !! new_addr (heap st)) = Some (next_id st)
    ∧ next_id st' = wrap_int (next_id st + 1)
  else
    registry st' = registry st ∧ dom (heap st') = dom (heap st)
    ∧ next_id st' = next_id st.
Proof.
  intros Hrun. destruct call as [on|env|t w h|l|c p|w|w t|]; simpl in *.
  - by injection Hrun as <-.
  - injection Hrun as <-. unfold qt_init. autorewrite with qtstub. by destruct env.
  - rewrite qt_window_new_closed in Hrun. injection Hrun as <-.
    autorewrite with qtstub. simpl. rewrite lookup_insert_eq, dom_insert_L.
    split_and!; try done; [apply new_addr_fresh|apply (comm_L (∪))].
  - rewrite qt_button_new_closed in Hrun. injection Hrun as <-.
    autorewrite with qtstub. simpl. rewrite lookup_insert_eq, dom_insert_L.
    split_and!; try done; [apply new_addr_fresh|apply (comm_L (∪))].
  - unfold qt_widget_set_parent in Hrun.
    destruct c as [c|]; [|by injection Hrun as <-].
    destruct (heap st !! c) as [objc|] eqn:Hc; [|done]. simpl in Hrun.
    apply dump_widget_inv in Hrun as [ln ->]. autorewrite with qtstub. simpl.
    rewrite dom_insert_lookup_L; eauto.
  - unfold qt_widget_show in Hrun. destruct w as [w|].
    + apply dump_widget_inv in Hrun as [ln ->]. by autorewrite with qtstub.
    + injection Hrun as <-. by autorewrite with qtstub.
  - unfold qt_widget_set_title in Hrun.
    destruct w as [w|]; [|by injection Hrun as <-].
    destruct (heap st !! w) as [objw|] eqn:Hw; [|done]. simpl in Hrun.
    apply dump_widget_inv in Hrun as [ln ->]. autorewrite with qtstub. simpl.
    rewrite dom_insert_lookup_L; eauto.
  - injection Hrun as <-. unfold qt_main_quit. simpl. by autorewrite with qtstub.
Qed.

(** X10: the registry only grows, and only under the constructors.  A call
    that returns leaves the registry, the counter and the set of live
    addresses as they were unless it is [qt_window_new] or [qt_button_new];
    these append one address that was not live before, make it live with
    the counter's old value as its id, and step the counter (wrapping as
    an [int] does). *)
Theorem registry_growth (call : api_call) (st st' : State) :
  api_run call st = Some st' →
  if is_ctor call then
    heap st !! new_addr (heap st) = None
    ∧ registry st' = registry st ++ [new_addr (heap st)]
    ∧ dom (heap st') = dom (heap st) ∪ {[new_addr (heap st)]}
    ∧ (id <$> heap st' !! new_addr (heap st)) = Some (next_id st)
    ∧ next_id st' = wrap_int (next_id st + 1)
  else
    registry st' = registry st ∧ dom (heap st') = dom (heap st)
    ∧ next_id st' = next_id st.
Proof.
  intros Hrun. pose proof (api_run_registry call st st' Hrun) as Hg.
  destruct (is_ctor call).
  - destruct Hg as (Hfresh & Hreg & Hdom & Hid & Hn). split_and!; assumption.
  - destruct Hg as (Hreg & Hdom & Hn). split_and!; assumption.
Qed.

(** A button created in the state that has one window. *)
Lemma registry_growth_witness :
  ∃ st', api_run (CallButtonNew None) one_window = Some st'
         ∧ registry st' = registry one_window ++ [new_addr (heap one_window)]
         ∧ next_id st' = 3.
Proof.
  assert (api_run (CallButtonNew None) one_window
          = Some (default one_window (api_run (CallButtonNew None) one_window)))
    as Hrun by (vm_compute; reflexivity).
  pose proof (registry_growth _ _ _ Hrun) as (_ & Hreg & _ & _ & Hn).
  eexists. split_and!; [exact Hrun|exact Hreg|]. rewrite Hn. vm_compute. reflexivity.
Defined.

Lemma registry_shape_step call st st' n :
  registry_shape n st → api_run call st = Some st' →
  registry_shape (if is_ctor call then S n else n) st'.
Proof.
  intros [Hlen Hnd Hdom Hnext Hids] Hrun.
  pose proof (api_run_registry call st st' Hrun) as Hg.
  unfold registry_ids in *. rewrite <- Hlen in Hids.
  pose proof (proj1 (ids_of_wrapped _ _) Hids) as Hpt.
  destruct (is_ctor call).
  - destruct Hg as (Hfresh & Hreg & Hd & Hid & Hn).
    assert (new_addr (heap st) ∉ registry st) as Hnew.
    { rewrite <- (elem_of_list_to_set (C:=gset addr)), <- Hdom.
      by apply not_elem_of_dom. }
    split.
    + rewrite Hreg, length_app. simpl. lia.
    + rewrite Hreg. apply NoDup_app. split_and!; [done| |apply NoDup_singleton].
      intros x Hx Hx'. apply list_elem_of_singleton in Hx' as ->. done.
    + by rewrite Hd, Hreg, list_to_set_snoc_L, Hdom.
    + rewrite Hn, Hnext, wrap_int_succ. f_equal. lia.
    + unfold registry_ids.
      replace (S n) with (length (registry st')) by (rewrite Hreg, length_app; simpl; lia).
      apply ids_of_wrapped. intros j a Hj. rewrite Hreg in Hj.
      apply lookup_snoc_Some in Hj as [[Hlt Hj]|[-> <-]].
      * destruct (Hpt j a Hj) as (obj & Hobj & Hido).
        destruct (api_run_fields call st st' a obj Hrun Hobj) as (obj' & -> & _ & Hi & _).
        exists obj'. split; [done|]. by rewrite Hi.
      * apply fmap_Some in Hid as (obj & -> & Hi). exists obj. split; [done|].
        rewrite <- Hi, Hnext. by rewrite Hlen.
  - destruct Hg as (Hreg & Hd & Hn). split.
    + by rewrite Hreg.
    + by rewrite Hreg.
    + by rewrite Hd, Hreg.
    + by rewrite Hn.
    + unfold registry_ids. rewrite <- Hlen, Hreg.
      apply ids_of_wrapped. intros j a Hj.
      destruct (Hpt j a Hj) as (obj & Hobj & Hido).
      destruct (api_run_fields call st st' a obj Hrun Hobj) as (obj' & -> & _ & Hi & _).
      exists obj'. split; [done|]. by rewrite Hi.
Qed.

Lemma registry_shape_runs calls : ∀ st st' n,
  registry_shape n st → api_runs calls st = Some st' →
  registry_shape (n + ctor_count calls) st'.
Proof.
  induction calls as [|call calls IH]; intros st st' n Hsh Hrun; simpl in Hrun.
  - injection Hrun as <-. unfold ctor_count. simpl. by rewrite Nat.add_0_r.
  - destruct (api_run call st) as [s1|] eqn:H1; [|done]. simpl in Hrun.
    pose proof (IH _ _ _ (registry_shape_step _ _ _ _ Hsh H1) Hrun) as Hsh'.
    unfold ctor_count in *. simpl. destruct (is_ctor call); simpl.
    + by replace (n + S (length (List.filter is_ctor calls)))%nat
        with (S n + length (List.filter is_ctor calls))%nat by lia.
    + done.
Qed.

Lemma registry_shape_init : registry_shape 0 init_state.
Proof. split; try done. apply NoDup_nil_2. Qed.

Lemma wrapped_ids_small n :
  Z.of_nat n <= INT_MAX → wrapped_ids n = seqZ 1 (Z.of_nat n).
Proof.
  unfold wrapped_ids. induction n as [|n IH]; intros Hn; [done|].
  rewrite seq_S, fmap_snoc, seqZ_S, IH by lia. simpl.
  rewrite wrap_int_small; [done|]. unfold INT_MIN, INT_MAX in *. lia.
Qed.

(** X12: ids in every reachable state below the overflow.  After any
    sequence of calls that all return, fewer than [INT_MAX] of them
    constructors, and however the other calls are interleaved with them,
    the registry invariant holds: the registered widgets carry the ids
    1, 2, ..., n in registry order and the counter is [n + 1]. *)
Theorem reachable_registry_inv (calls : list api_call) (st : State) :
  api_runs calls init_state = Some st →
  Z.of_nat (ctor_count calls) < INT_MAX →
  registry_inv st
  ∧ registry_ids st = Some (seqZ 1 (Z.of_nat (ctor_count calls))).
Proof.
  intros Hrun Hb.
  destruct (registry_shape_runs calls init_state st 0 registry_shape_init Hrun)
    as [Hlen Hnd Hdom Hnext Hids].
  simpl in *. rewrite wrapped_ids_small in Hids by lia.
  rewrite wrap_int_small in Hnext by (unfold INT_MIN, INT_MAX in *; lia).
  split; [|done]. split; try done.
  - by rewrite Hlen.
  - by rewrite Hlen.
  - rewrite Hnext. lia.
Qed.

(** The end-to-end scenario as a call sequence. *)
Lemma reachable_registry_inv_witness :
  let calls := [CallWindowNew (Some "App") 640 480; CallButtonNew (Some "OK");
                CallSetParent (Some 2%positive) (Some 1%positive);
                CallSetTitle (Some 2%positive) (Some "Confirm")] in
  registry_ids (default init_state (api_runs calls init_state)) = Some [1; 2].
Proof.
  intros calls.
  assert (api_runs calls init_state
          = Some (default init_state (api_runs calls init_state))) as Hrun
    by (vm_compute; reflexivity).
  assert (Z.of_nat (ctor_count calls) < INT_MAX) as Hb by (vm_compute; reflexivity).
  exact (proj2 (reachable_registry_inv calls _ Hrun Hb)).
Defined.

(** ** The event loop under arbitrary interleavings *)

Lemma qt_main_step_keeps c :
  same_widgets c.2 (qt_main_step c).2
  ∧ g_verbose (qt_main_step c).2 = g_verbose c.2.
Proof.
  destruct c as [pc st]. unfold qt_main_step, same_widgets. simpl.
  destruct pc; simpl; [|destruct (g_running st); simpl| |];
    autorewrite with qtstub; done.
Qed.

Lemma loop_event_keeps e c :
  same_widgets c.2 (loop_exec1 c e).2
  ∧ g_verbose (loop_exec1 c e).2 = g_verbose c.2.
Proof.
  destruct e; simpl.
  - apply qt_main_step_keeps.
  - split; [apply same_widgets_quit|]. unfold qt_main_quit. simpl.
    by autorewrite with qtstub.
Qed.

Lemma loop_event_returned e c :
  (∀ r, c.1 = MainReturned r → r = 0 ∧ g_running c.2 = false) →
  ∀ r, (loop_exec1 c e).1 = MainReturned r →
       r = 0 ∧ g_running (loop_exec1 c e).2 = false.
Proof.
  destruct c as [pc st]. intros Hc r. destruct e; simpl.
  - unfold qt_main_step. simpl. destruct pc; simpl; try done.
    + destruct (g_running st) eqn:Hrun; simpl; [done|].
      intros [= <-]. by rewrite g_running_trace.
    + intros [= <-]. by apply Hc.
  - intros Hr. destruct (Hc r Hr) as [-> _]. done.
Qed.

(** X13: what the loop never does.  Along any interleaving of steps of the
    thread inside [qt_main] with calls of [qt_main_quit], from any state:
    the counter, the registry and every widget stay as they were, and so
    does the verbosity; and if [qt_main] has returned, it returned 0 and
    the run flag is down. *)
Theorem loop_never (es : list loop_event) (st : State) :
  let c := loop_exec es (MainEntry, st) in
  same_widgets st c.2
  ∧ g_verbose c.2 = g_verbose st
  ∧ ∀ r, c.1 = MainReturned r → r = 0 ∧ g_running c.2 = false.
Proof.
  induction es as [|e es IH] using rev_ind; cbv zeta in *.
  - unfold same_widgets. simpl. done.
  - rewrite loop_exec_app. cbn [loop_exec foldl].
    destruct IH as (Hsw & Hv & Hret).
    destruct (loop_event_keeps e (loop_exec es (MainEntry, st))) as [Hsw' Hv'].
    split_and!.
    + eapply same_widgets_trans; [exact Hsw|exact Hsw'].
    + by rewrite Hv'.
    + by apply loop_event_returned.
Qed.

Lemma loop_progress_cases (es : list loop_event) (st : State) :
  let c := loop_exec es (MainEntry, st) in
  ((Tick ∉ es) ∧ c.1 = MainEntry) ∨ (Tick ∈ es ∧ polling c) ∨ quit_after_tick es.
Proof.
  induction es as [|e es IH] using rev_ind; cbv zeta in *.
  - left. split; [apply not_elem_of_nil|done].
  - rewrite loop_exec_app. cbn [loop_exec foldl].
    destruct (loop_exec es (MainEntry, st)) as [pc s] eqn:Hc.
    destruct IH as [[Hno Hpc]|[[Hin Hpoll]|(es1 & es2 & -> & Hin)]].
    + simpl in Hpc. subst pc. destruct e; simpl.
      * right. left. split; [set_solver|apply entry_tick].
      * left. split; [|done]. intros Hin.
        apply elem_of_app in Hin as [Hin|Hin]; [done|].
        by apply list_elem_of_singleton in Hin.
    + destruct e; simpl.
      * right. left. split; [set_solver|by apply polling_tick].
      * right. right. exists es, []. done.
    + right. right. exists es1, (es2 ++ [e]). split; [|done].
      by rewrite <- app_assoc.
Qed.

(** X14: [qt_main] does not return by itself.  Along any interleaving, if
    the call has returned then some [qt_main_quit] came after the call had
    taken its first step; quits that all came earlier are overwritten when
    the loop raises the flag. *)
Theorem return_needs_quit (es : list loop_event) (st : State) :
  returned (loop_exec es (MainEntry, st)).1 = true → quit_after_tick es.
Proof.
  intros Hret.
  destruct (loop_progress_cases es st) as [[_ Hpc]|[[_ [_ Hpc]]|Hq]]; [| |done].
  - by rewrite Hpc in Hret.
  - destruct Hpc as [Hpc|Hpc]; by rewrite Hpc in Hret.
Qed.

(** Enter, quit, look at the flag: returned, and the quit is there. *)
Lemma return_needs_quit_witness : quit_after_tick [Quit; Tick; Quit; Tick].
Proof.
  apply (return_needs_quit [Quit; Tick; Quit; Tick] init_state).
  vm_compute. reflexivity.
Defined.

(** ** The mutex *)

Import Linear.

Lemma lock_inv_others_idle c i j t :
  lock_inv c → g_mu c = None ∨ g_mu c = Some i →
  j ≠ i → threads c !! j = Some t → pc t = Idle.
Proof.
  intros [Hlock _] Hmu Hne Hj. specialize (Hlock j t Hj).
  destruct (pc t); try done;
    (assert (g_mu c = Some j) as Hown by (by apply Hlock));
    destruct Hmu as [Hmu|Hmu]; rewrite Hmu in Hown; congruence.
Qed.

Lemma lock_inv_update c i t mu' st' t' :
  lock_inv c → threads c !! i = Some t →
  g_mu c = None ∨ g_mu c = Some i →
  (pc t' = Idle → mu' = None) → (pc t' ≠ Idle → mu' = Some i) →
  lock_inv {| shared := st'; g_mu := mu'; threads := <[i:=t']> (threads c);
              crashed := crashed c |}.
Proof.
  intros Hinv Hi Hmu Hidle Hbusy.
  assert (i < length (threads c))%nat as Hlen by (by eapply lookup_lt_Some).
  assert (∀ j, mu' = Some j → j = i) as Hmover.
  { intros j Hj. destruct (pc t') eqn:E;
      try (rewrite Hbusy in Hj by done; congruence).
    rewrite Hidle in Hj by done. done. }
  split; simpl.
  - intros j tj Hj. destruct (decide (j = i)) as [->|Hne].
    + rewrite list_lookup_insert_eq in Hj by done. injection Hj as <-.
      split; [done|]. intros Hown Hidl. rewrite Hidle in Hown by done. done.
    + rewrite list_lookup_insert_ne in Hj by done.
      rewrite (lock_inv_others_idle c i j tj Hinv Hmu Hne Hj).
      split; [done|]. intros Hown. by apply Hmover in Hown.
  - intros j Hj. apply Hmover in Hj as ->.
    rewrite list_lookup_insert_eq by done. eauto.
Qed.

Lemma lock_inv_step c i : lock_inv c → lock_inv (step c i).
Proof.
  intros Hinv. unfold step.
  destruct (threads c !! i) as [t|] eqn:Hi; [|done].
  pose proof (proj1 Hinv i t Hi) as Hlock.
  unfold thread_step.
  destruct t as [p td g]. destruct p as [|k|k w|w|w tmp|w tmp|w|w]; simpl in *.
  - destruct td as [|k ks]; [done|].
    destruct (g_mu c) eqn:Hmu; [done|].
    apply (lock_inv_update c i _ _ _ _ Hinv Hi); simpl; auto; done.
  - assert (g_mu c = Some i) as Hown by (by apply Hlock).
    apply (lock_inv_update c i _ _ _ _ Hinv Hi); simpl; auto; done.
  - assert (g_mu c = Some i) as Hown by (by apply Hlock).
    destruct (heap (shared c) !! w); [|done].
    apply (lock_inv_update c i _ _ _ _ Hinv Hi); simpl; auto; done.
  - assert (g_mu c = Some i) as Hown by (by apply Hlock).
    apply (lock_inv_update c i _ _ _ _ Hinv Hi); simpl; auto; done.
  - assert (g_mu c = Some i) as Hown by (by apply Hlock).
    apply (lock_inv_update c i _ _ _ _ Hinv Hi); simpl; auto; done.
  - assert (g_mu c = Some i) as Hown by (by apply Hlock).
    destruct (heap (shared c) !! w); [|done].
    apply (lock_inv_update c i _ _ _ _ Hinv Hi); simpl; auto; done.
  - assert (g_mu c = Some i) as Hown by (by apply Hlock).
    apply (lock_inv_update c i _ _ _ _ Hinv Hi); simpl; auto; done.
  - assert (g_mu c = Some i) as Hown by (by apply Hlock).
    apply (lock_inv_update c i _ _ _ _ Hinv Hi); simpl; auto; done.
Qed.

Lemma lock_inv_start work : lock_inv (start work).
Proof.
  split; simpl; [|done]. intros i t Hi. rewrite list_lookup_fmap in Hi.
  destruct (work !! i); simplify_eq/=. split; [done|discriminate].
Qed.

Lemma lock_inv_run sched : ∀ c, lock_inv c → lock_inv (run sched c).
Proof.
  induction sched as [|i sched IH]; intros c Hinv; [done|].
  apply IH, lock_inv_step, Hinv.
Qed.

(** X15: mutual exclusion.  Whatever the workload and the schedule, at no
    point are two threads inside [make_widget] past the lock: the mutex
    has an owner exactly when some thread is, and that thread is the
    owner. *)
Theorem mutual_exclusion (work : list (list Kind)) (sched : list nat) :
  let c := run sched (start work) in
  (∀ i j ti tj, threads c !! i = Some ti → threads c !! j = Some tj →
                pc ti ≠ Idle → pc tj ≠ Idle → i = j)
  ∧ (∀ i, g_mu c = Some i ↔ ∃ t, threads c !! i = Some t ∧ pc t ≠ Idle).
Proof.
  intros c.
  assert (lock_inv c) as [Hlock Hown] by apply lock_inv_run, lock_inv_start.
  split.
  - intros i j ti tj Hi Hj Hbi Hbj.
    apply (Hlock i ti Hi) in Hbi. apply (Hlock j tj Hj) in Hbj. congruence.
  - intros i. split.
    + intros Hmu. destruct (Hown i Hmu) as [t Ht]. exists t. split; [done|].
      by apply (Hlock i t Ht).
    + intros (t & Ht & Hb). by apply (Hlock i t Ht).
Qed.

(** Thread 0 is in the middle of a call; thread 1 has been scheduled but is
    still outside. *)
Lemma mutual_exclusion_witness :
  g_mu (run [0; 0; 1; 0; 1]%nat (start [[Window]; [Button]])) = Some 0%nat.
Proof.
  apply (mutual_exclusion [[Window]; [Button]] [0; 0; 1; 0; 1]%nat).
  eexists. split; [vm_compute; reflexivity|]. discriminate.
Defined.

(** ** Concurrent executions are sequential ones in disguise *)

Lemma seq_make_snoc ks k st :
  seq_make (ks ++ [k]) st = (make_widget k (seq_make ks st)).1.
Proof. unfold seq_make. by rewrite foldl_app. Qed.

Lemma todo_insert_same (l : list Thread) i t t' :
  l !! i = Some t → todo t' = todo t → <[i:=t']> l ≫= todo = l ≫= todo.
Proof.
  intros Hi Htodo. destruct (insert_split l i t t' Hi) as (l1 & l2 & -> & ->).
  by rewrite !bind_app, !bind_cons, Htodo.
Qed.

Lemma start_todo work : threads (start work) ≫= todo = concat work.
Proof.
  simpl. induction work as [|ks work IH]; [done|].
  by rewrite fmap_cons, bind_cons, IH.
Qed.

Lemma linearized_start work : linearized work (start work) [] None.
Proof. split; [by rewrite start_todo|done]. Qed.

(** A step inside the critical section: the owner moves from one position
    to the next, the completed calls stay the same. *)
Lemma linearized_inside work c i t ks k st' p' :
  threads c !! i = Some t → g_mu c = Some i →
  ks ++ option_list (Some k) ++ (threads c ≫= todo) ≡ₚ concat work →
  midway (seq_make ks init_state) k p' st' →
  linearized work
    {| shared := st'; g_mu := g_mu c; threads := <[i := at_pc p' t]> (threads c);
       crashed := crashed c |} ks (Some k).
Proof.
  intros Hi Hmu Hperm Hmid.
  assert (i < length (threads c))%nat as Hlen by (by eapply lookup_lt_Some).
  split; simpl.
  - by rewrite (todo_insert_same _ _ t).
  - rewrite Hmu. exists (at_pc p' t). split; [|done].
    by apply list_lookup_insert_eq.
Qed.

Lemma linearized_step work c i ks cur :
  lock_inv c → linearized work c ks cur →
  ∃ ks' cur', linearized work (step c i) ks' cur'.
Proof.
  intros Hlock [Hperm Hst]. unfold step.
  destruct (threads c !! i) as [t|] eqn:Hi; [|by exists ks, cur].
  pose proof (proj1 Hlock i t Hi) as Hown.
  assert (i < length (threads c))%nat as Hlen by (by eapply lookup_lt_Some).
  unfold thread_step. destruct (pc t) as [|k'|k' w|w|w tmp|w tmp|w|w] eqn:Hpc.
  1: { (* lock *)
    destruct (todo t) as [|k0 ks0] eqn:Htodo; [by exists ks, cur|].
    destruct (g_mu c) eqn:Hmu;
      [exists ks, cur; split; [done|by rewrite Hmu]|].
    destruct cur; [done|].
    exists ks, (Some k0). split; simpl.
    - destruct (insert_split (threads c) i t
                  {| pc := AtNew k0; todo := ks0; got := got t |} Hi)
        as (l1 & l2 & Hl & ->).
      rewrite <- Hperm, Hl, !bind_app, !bind_cons, Htodo. simpl.
      f_equiv. by rewrite Permutation_middle.
    - eexists. split; [by apply list_lookup_insert_eq|]. simpl. done. }
  (* the critical section *)
  all: assert (g_mu c = Some i) as Hmu by (by apply Hown).
  all: rewrite Hmu in Hst; destruct cur as [k|]; [|done].
  all: destruct Hst as (t0 & Ht0 & Hmid); rewrite Hi in Ht0;
    injection Ht0 as <-; rewrite Hpc in Hmid; simpl in Hmid.
  - destruct Hmid as [-> Hsh]. exists ks, (Some k).
    apply (linearized_inside work c i t); try done.
    simpl. by rewrite Hsh.
  - destruct Hmid as (-> & -> & Hsh). rewrite Hsh. simpl.
    rewrite lookup_insert_eq. exists ks, (Some k).
    apply (linearized_inside work c i t); try done.
    simpl. split; [done|]. unfold with_heap. simpl.
    by rewrite insert_insert_eq.
  - destruct Hmid as (-> & Hsh). exists ks, (Some k).
    apply (linearized_inside work c i t); try done.
    simpl. by rewrite Hsh.
  - destruct Hmid as (-> & -> & Hsh). exists ks, (Some k).
    apply (linearized_inside work c i t); try done.
    simpl. by rewrite Hsh.
  - destruct Hmid as (-> & -> & Hsh). rewrite Hsh. simpl.
    rewrite lookup_insert_eq. exists ks, (Some k).
    apply (linearized_inside work c i t); try done.
    simpl. split; [done|]. unfold with_heap, with_next_id. simpl.
    by rewrite insert_insert_eq.
  - destruct Hmid as (-> & Hsh). exists ks, (Some k).
    apply (linearized_inside work c i t); try done.
    simpl. split; [done|]. by rewrite Hsh.
  - destruct Hmid as (-> & Hsh). exists (ks ++ [k]), None. split; simpl.
    + rewrite (todo_insert_same _ _ t) by done.
      rewrite <- Hperm. simpl. by rewrite <- app_assoc.
    + by rewrite seq_make_snoc.
Qed.

Lemma linearized_run work sched : ∀ c ks cur,
  lock_inv c → linearized work c ks cur →
  ∃ ks' cur', linearized work (run sched c) ks' cur'.
Proof.
  induction sched as [|i sched IH]; intros c ks cur Hlock Hlin; [by exists ks, cur|].
  destruct (linearized_step work c i ks cur Hlock Hlin) as (ks1 & cur1 & H1).
  exact (IH _ _ _ (lock_inv_step c i Hlock) H1).
Qed.

Lemma finished_todo (l : list Thread) :
  forallb thread_done l = true → l ≫= todo = [].
Proof.
  induction l as [|t l IH]; [done|]. intros Hd. simpl in Hd.
  apply andb_prop in Hd as [Ht Hl]. rewrite bind_cons, (IH Hl).
  unfold thread_done in Ht. destruct (pc t), (todo t); done.
Qed.

Lemma finished_unlocked c : lock_inv c → finished c = true → g_mu c = None.
Proof.
  intros [Hlock Hown] Hfin. destruct (g_mu c) as [i|] eqn:Hmu; [|done].
  destruct (Hown i eq_refl) as [t Ht].
  assert (pc t ≠ Idle) as Hbusy by (by apply (Hlock i t Ht)).
  unfold finished in Hfin. rewrite forallb_forall in Hfin.
  assert (thread_done t = true) as Hd.
  { apply Hfin. apply list_elem_of_In. by eapply list_elem_of_lookup_2. }
  unfold thread_done in Hd. by destruct (pc t).
Qed.

(** X16: concurrent calls amount to sequential ones.  Whatever the
    workload and the schedule (no bound on the number of calls), whenever
    the mutex is free the shared state is exactly the state that
    [make_widget], called by a single thread for some list [ks] of kinds
    one after the other, produces from the initial state; [ks] together
    with the calls not yet started is the workload, up to order.  Once all
    threads are done, [ks] is a rearrangement of the whole workload. *)
Theorem concurrent_is_sequential (work : list (list Kind)) (sched : list nat) :
  let c := run sched (start work) in
  (g_mu c = None →
     ∃ ks, shared c = seq_make ks init_state
           ∧ ks ++ (threads c ≫= todo) ≡ₚ concat work)
  ∧ (finished c = true →
     ∃ ks, shared c = seq_make ks init_state ∧ ks ≡ₚ concat work).
Proof.
  intros c.
  assert (lock_inv c) as Hlock by apply lock_inv_run, lock_inv_start.
  destruct (linearized_run work sched (start work) [] None
              (lock_inv_start work) (linearized_start work))
    as (ks & cur & Hperm & Hst).
  fold c in Hperm, Hst.
  assert (g_mu c = None →
          ∃ ks, shared c = seq_make ks init_state
                ∧ ks ++ (threads c ≫= todo) ≡ₚ concat work) as Hfree.
  { intros Hmu. rewrite Hmu in Hst. destruct cur; [done|]. by exists ks. }
  split; [exact Hfree|]. intros Hfin.
  destruct (Hfree (finished_unlocked c Hlock Hfin)) as (ks' & Hsh & Hp).
  exists ks'. split; [done|].
  unfold finished in Hfin. by rewrite (finished_todo _ Hfin), app_nil_r in Hp.
Qed.

(** Two threads, three calls, served in the order Window, Button, Button. *)
Lemma concurrent_is_sequential_witness :
  let c := run [0; 1; 0; 1; 0; 0; 0; 1; 0; 0; 0; 1; 1; 1; 1; 1; 1; 1; 1;
                0; 0; 0; 0; 0; 0; 0; 0]%nat
               (start [[Window; Button]; [Button]]) in
  ∃ ks, shared c = seq_make ks init_state ∧ ks ≡ₚ [Window; Button; Button].
Proof.
  intros c.
  assert (finished c = true) as Hfin by (vm_compute; reflexivity).
  exact (proj2 (concurrent_is_sequential [[Window; Button]; [Button]] _) Hfin).
Defined.

(** X17: an uncontended call.  A thread that is outside [make_widget] with
    a call to make, finds the mutex free and is scheduled eight times in a
    row, leaves the shared state exactly as the sequential [make_widget]
    does, has the pointer it returns appended to its results, and has
    released the mutex; the other threads are untouched. *)
Theorem uncontended_call (c : Config) (i : nat) (k : Kind) (ks : list Kind)
    (g : list addr) :
  threads c !! i = Some {| pc := Idle; todo := k :: ks; got := g |} →
  g_mu c = None →
  run (replicate 8 i) c
  = {| shared := (make_widget k (shared c)).1;
       g_mu := None;
       threads := <[i := {| pc := Idle; todo := ks;
                            got := g ++ [(make_widget k (shared c)).2] |}]> (threads c);
       crashed := crashed c |}.
Proof.
  intros Hi Hmu.
  assert (i < length (threads c))%nat as Hlen by (by eapply lookup_lt_Some).
  cbn [replicate run foldl].
  erewrite (step_next c i); [|exact Hi|by rewrite Hmu].
  do 7 (match goal with
        | |- context [step ?c0 i] =>
            lazymatch c0 with
            | context [step] => fail
            | _ =>
                erewrite (step_next c0 i);
                [|simpl; apply list_lookup_insert_eq; by rewrite ?length_insert
                 |simpl; unfold thread_step; simpl; rewrite ?lookup_insert_eq;
                  reflexivity]
            end
        end;
        simpl; rewrite ?list_insert_insert_eq, ?insert_insert_eq).
  unfold make_widget. simpl. destruct (shared c). reflexivity.
Qed.

(** The second of two threads goes first. *)
Lemma uncontended_call_witness :
  shared (run (replicate 8 1%nat) (start [[Window]; [Button]]))
  = (make_widget Button init_state).1.
Proof.
  rewrite (uncontended_call (start [[Window]; [Button]]) 1 Button [] []); done.
Defined.

(** ** What [qt_widget_show] reports *)

Lemma kind_name_inj k1 k2 : kind_name k1 = kind_name k2 → k1 = k2.
Proof. by destruct k1, k2. Qed.

(** X18: showing a live widget reads, it does not write: the state
    afterwards is the state before plus one [trace] of the widget's id,
    kind name, title, label, size and parent id, exactly as stored.  When
    the registry invariant holds the parent id printed is 0 if and only if
    the widget has no parent (every issued id is at least 1), and otherwise
    it is the id of the widget the parent pointer leads to.  The kind name
    printed determines the kind. *)
Theorem show_reports (st : State) (w : addr) (obj : Widget) :
  registry_inv st → heap_closed st → heap st !! w = Some obj →
  (∃ pid,
     qt_widget_show (Some w) st
     = Some (trace (Dump "widget_show" (id obj) (kind_name (kind obj)) (title obj)
                         (label obj) (width obj) (height obj) pid) st)
     ∧ (pid = 0 ↔ parent obj = None)
     ∧ ∀ p po, parent obj = Some p → heap st !! p = Some po → pid = id po)
  ∧ ∀ k, kind_name k = kind_name (kind obj) → k = kind obj.
Proof.
  intros Hinv Hcl Hw. split; [|intros k; apply kind_name_inj].
  unfold qt_widget_show. destruct (parent obj) as [p|] eqn:Hp.
  - destruct (Hcl w obj p Hw Hp) as [po Hpo].
    exists (id po). split_and!.
    + apply dump_widget_eq; [done|]. by rewrite Hp, Hpo.
    + pose proof (registry_inv_id_range _ _ _ Hinv Hpo). split; [lia|done].
    + intros q qo [= <-] Hq. rewrite Hpo in Hq. by injection Hq as <-.
  - exists 0. split_and!; [|done|done].
    apply dump_widget_eq; [done|]. by rewrite Hp.
Qed.

(** Showing the button of the two-widget state: no parent, hence 0. *)
Lemma show_reports_witness :
  qt_widget_show (Some 2%positive) window_and_button
  = Some (trace (Dump "widget_show" 2 "Button" "" "OK" 0 0 0) window_and_button).
Proof.
  destruct window_and_button_heap as [_ HB].
  assert (registry_inv window_and_button) as Hinv.
  { assert (api_runs [CallWindowNew (Some "App") 640 480; CallButtonNew (Some "OK")]
                     init_state = Some window_and_button) as Hrun
      by (vm_compute; reflexivity).
    destruct (registry_shape_runs _ init_state _ 0 registry_shape_init Hrun)
      as [Hlen Hnd Hdom Hnext Hids].
    split; try done; rewrite ?Hlen; done. }
  destruct (show_reports window_and_button 2%positive _ Hinv
              window_and_button_closed HB) as [(pid & Heq & Hz & _) _].
  etrans; [exact Heq|]. simpl. by rewrite (proj2 Hz eq_refl).
Defined.
